(** * mini-boi: the tactical target acquisition challenge server (main.go)

    A shallow embedding of the challenge lifecycle of [main.go]: the geometry
    ([distance3D], [findClosestTarget]), the generator ([generateChallenge]),
    the registry [activeChallenges] with its sweep
    ([cleanupExpiredChallenges]) and the two request handlers
    ([coordinatesChallengeHandler], [coordinatesAnswerHandler]).

    Modelling choices.
    - [float64] is Rocq's primitive [float] (IEEE 754 binary64, round to
      nearest even), [math.Sqrt] is [PrimFloat.sqrt].  Every operation is
      rounded on its own, as on amd64 (no fused multiply-add).
    - [time.Time] is the monotonic clock reading in nanoseconds, a [Z];
      [time.Duration] is a number of nanoseconds.
    - [activeChallenges] is a [gmap string ChallengeData].  The Go map holds
      pointers, but no code path writes through one, so records are values.
    - [math/rand] and the clock are inputs: a random source is threaded
      through the generator, and each [time.Now()] is a parameter.
    - The HTTP and JSON layers are outside the model: a handler takes the
      decoded request and returns the response it would encode. *)

From Stdlib Require Import ZArith Lia Floats.
From stdpp Require Import gmap strings list pretty.

Local Open Scope Z_scope.

(** ** Data model *)

(** [Coordinate] of main.go; the field [Z] is spelled [Zc] here, [Z] being the
    type of integers. *)
Record Coordinate := mkCoordinate {
  ID : string;
  X : float;
  Y : float;
  Zc : float
}.

Record TargetChallenge := mkTargetChallenge {
  ChallengeID : string;
  PlayerPos : Coordinate;
  Targets : list Coordinate;
  Timestamp : Z
}.

(** [TargetResponse]: the submission; its [ChallengeID] field is
    [RespChallengeID] here (a field name is global in Rocq). *)
Record TargetResponse := mkTargetResponse {
  RespChallengeID : string;
  ClosestID : string
}.

Record ChallengeData := mkChallengeData {
  Challenge : TargetChallenge;
  ExpectedAnswer : string;
  CreatedAt : Z
}.

(** [time.Second], in nanoseconds. *)
Definition Second : Z := 1000000000.

(** ** Geometry *)

(** [distance3D]: every operation is a binary64 operation. *)
Definition distance3D (p1 p2 : Coordinate) : float :=
  let dx := (X p1 - X p2)%float in
  let dy := (Y p1 - Y p2)%float in
  let dz := (Zc p1 - Zc p2)%float in
  sqrt (dx * dx + dy * dy + dz * dz)%float.

(** The loop of [findClosestTarget] over [targets[1:]], with its two loop
    variables. *)
Fixpoint closest_scan (playerPos : Coordinate) (closestID : string)
    (minDistance : float) (targets : list Coordinate) : string :=
  match targets with
  | [] => closestID
  | target :: rest =>
      let dist := distance3D playerPos target in
      if (dist <? minDistance)%float
      then closest_scan playerPos (ID target) dist rest
      else closest_scan playerPos closestID minDistance rest
  end.

Definition findClosestTarget (playerPos : Coordinate)
    (targets : list Coordinate) : string :=
  match targets with
  | [] => ""
  | first :: rest =>
      closest_scan playerPos (ID first) (distance3D playerPos first) rest
  end.

(** ** Random source *)

(** The contract of [math/rand] the generator relies on: [rand.Intn n] is in
    [[0, n)] for a positive [n], and [rand.Float64 ()] is a binary64 number in
    [[0.0, 1.0)].  A source is threaded through the draws, in program
    order. *)
Class RandSource (R : Type) := {
  Intn : Z → R → Z * R;
  Float64 : R → float * R;
  Intn_range : ∀ n r, 0 < n → 0 ≤ (Intn n r).1 < n;
  Float64_range : ∀ r,
    (0 <=? (Float64 r).1)%float = true ∧ ((Float64 r).1 <? 1)%float = true
}.

(** ** Challenge generator *)

(** The loop [for i := 0; i < numTargets; i++] of [generateChallenge]: [n]
    iterations are left and the loop variable is [i]. *)
Fixpoint gen_targets {R : Type} `{RandSource R} (n : nat) (i : Z) (rng : R)
    : list Coordinate * R :=
  match n with
  | O => ([], rng)
  | S n' =>
      let '(fx, rng) := Float64 rng in
      let '(fy, rng) := Float64 rng in
      let '(fz, rng) := Float64 rng in
      let target :=
        {| ID := "T" +:+ pretty (i + 1);
           X := ((fx - 0.5) * 200)%float;
           Y := ((fy - 0.5) * 200)%float;
           Zc := ((fz - 0.5) * 100)%float |} in
      let '(rest, rng) := gen_targets n' (i + 1) rng in
      (target :: rest, rng)
  end.

(** [generateChallenge]; [now] is the reading of [time.Now()], and
    [Timestamp] its whole seconds. *)
Definition generateChallenge {R : Type} `{RandSource R} (rng : R) (now : Z)
    : TargetChallenge * R :=
  let '(tag, rng) := Intn 999999 rng in
  let challengeID := "TARG-" +:+ pretty tag in
  let playerPos := {| ID := "PLAYER"; X := 0; Y := 0; Zc := 0 |} in
  let '(extra, rng) := Intn 4 rng in
  let numTargets := 5 + extra in
  let '(targets, rng) := gen_targets (Z.to_nat numTargets) 0 rng in
  ({| ChallengeID := challengeID;
      PlayerPos := playerPos;
      Targets := targets;
      Timestamp := now / Second |}, rng).

(** ** The registry and its sweep *)

(** [cleanupExpiredChallenges]: under the write lock, every entry whose
    [CreatedAt] is [Before] the cutoff is deleted. *)
Definition cleanupExpiredChallenges (now : Z)
    (activeChallenges : gmap string ChallengeData) : gmap string ChallengeData :=
  let cutoff := now - 2 * Second in
  filter (λ entry, ¬ (CreatedAt entry.2 < cutoff)) activeChallenges.

(** ** Handlers *)

(** What a handler answers; the numbers are kept as computed, before
    [fmt.Sprintf] renders them. *)
Inductive Response :=
| InvalidJSON
| NotFound
| TimeExpired (elapsed : Z)
| TargetAcquired (elapsed : Z) (challenge_id target_id : string)
| TargetMissed (correct_target chosen_target : string)
    (correct_distance chosen_distance : float) (challenge_id : string).

(** [coordinatesChallengeHandler]: [now_gen] is the clock read inside
    [generateChallenge], [now_store] the one read for [CreatedAt].  Returns
    the challenge served, the registry and the random source. *)
Definition coordinatesChallengeHandler {R : Type} `{RandSource R}
    (rng : R) (now_gen now_store : Z)
    (activeChallenges : gmap string ChallengeData)
    : TargetChallenge * gmap string ChallengeData * R :=
  let '(challenge, rng) := generateChallenge rng now_gen in
  let expectedAnswer :=
    findClosestTarget (PlayerPos challenge) (Targets challenge) in
  let activeChallenges :=
    <[ChallengeID challenge :=
        {| Challenge := challenge;
           ExpectedAnswer := expectedAnswer;
           CreatedAt := now_store |}]> activeChallenges in
  (challenge, activeChallenges, rng).

(** The feedback loop of the failure branch: [correctDistance] and
    [chosenDistance] start at the zero value and are assigned at every
    matching target. *)
Fixpoint feedback_scan (playerPos : Coordinate) (expected chosen : string)
    (correctDistance chosenDistance : float) (targets : list Coordinate)
    : float * float :=
  match targets with
  | [] => (correctDistance, chosenDistance)
  | target :: rest =>
      let dist := distance3D playerPos target in
      let correctDistance :=
        if decide (ID target = expected) then dist else correctDistance in
      let chosenDistance :=
        if decide (ID target = chosen) then dist else chosenDistance in
      feedback_scan playerPos expected chosen correctDistance chosenDistance rest
  end.

(** The three phases of [coordinatesAnswerHandler] after decoding.  First
    critical section (read lock): the lookup. *)
Definition answer_lookup (response : TargetResponse)
    (activeChallenges : gmap string ChallengeData) : option ChallengeData :=
  activeChallenges !! RespChallengeID response.

(** Between the critical sections: the deadline check and the grading of the
    record found.  The boolean tells whether the handler goes on to the
    removal: the timeout branch answers and returns, the two graded branches
    fall through to the [delete] at the end of the function. *)
Definition answer_grade (response : TargetResponse)
    (challengeData : ChallengeData) (now : Z) : Response * bool :=
  let elapsed := now - CreatedAt challengeData in
  if decide (elapsed > Second) then (TimeExpired elapsed, false)
  else if decide (ClosestID response = ExpectedAnswer challengeData) then
    (TargetAcquired elapsed (RespChallengeID response) (ClosestID response),
     true)
  else
    let '(correctDistance, chosenDistance) :=
      feedback_scan (PlayerPos (Challenge challengeData))
        (ExpectedAnswer challengeData) (ClosestID response) 0%float 0%float
        (Targets (Challenge challengeData)) in
    (TargetMissed (ExpectedAnswer challengeData) (ClosestID response)
       correctDistance chosenDistance (RespChallengeID response), true).

(** Second critical section (write lock): the removal. *)
Definition answer_remove (response : TargetResponse)
    (activeChallenges : gmap string ChallengeData) : gmap string ChallengeData :=
  delete (RespChallengeID response) activeChallenges.

(** [coordinatesAnswerHandler] run without interruption: [decoded] is what
    [json.Decode] made of the body ([None]: an error), [now] the clock read
    by [time.Since]. *)
Definition coordinatesAnswerHandler (decoded : option TargetResponse)
    (now : Z) (activeChallenges : gmap string ChallengeData)
    : Response * gmap string ChallengeData :=
  match decoded with
  | None => (InvalidJSON, activeChallenges)
  | Some response =>
      match answer_lookup response activeChallenges with
      | None => (NotFound, activeChallenges)
      | Some challengeData =>
          let '(out, removes) := answer_grade response challengeData now in
          if removes then (out, answer_remove response activeChallenges)
          else (out, activeChallenges)
      end
  end.

(** ** Handlers in flight *)

(** The handlers run on goroutines of their own and meet at
    [challengeMutex].  A thread is a handler between two of its critical
    sections; one step of a thread is the stretch of code up to the end of its
    next critical section, which the mutex makes atomic. *)
Inductive Thread :=
| Issuing (challenge : TargetChallenge) (expectedAnswer : string)
| Answering (response : TargetResponse)
| Grading (response : TargetResponse) (challengeData : ChallengeData)
| Removing (response : TargetResponse) (out : Response)
| Sweeping
| Finished (out : option Response).

Record World := mkWorld {
  registry : gmap string ChallengeData;
  clock : Z;
  pool : list Thread
}.

(** The next step of a thread at clock reading [now]: the thread it becomes
    and the registry it leaves.
    - [Issuing]: [Lock]; insert with [CreatedAt: time.Now()]; [Unlock].
    - [Answering]: [RLock]; lookup; [RUnlock]; not found answers 404.
    - [Grading]: [time.Since], the deadline check and the verdict; no lock.
    - [Removing]: [Lock]; [delete]; [Unlock].
    - [Sweeping]: one call of [cleanupExpiredChallenges]. *)
Definition run_thread (t : Thread) (now : Z)
    (activeChallenges : gmap string ChallengeData)
    : Thread * gmap string ChallengeData :=
  match t with
  | Issuing challenge expectedAnswer =>
      (Finished None,
       <[ChallengeID challenge :=
           {| Challenge := challenge;
              ExpectedAnswer := expectedAnswer;
              CreatedAt := now |}]> activeChallenges)
  | Answering response =>
      match answer_lookup response activeChallenges with
      | None => (Finished (Some NotFound), activeChallenges)
      | Some challengeData => (Grading response challengeData, activeChallenges)
      end
  | Grading response challengeData =>
      let '(out, removes) := answer_grade response challengeData now in
      if removes then (Removing response out, activeChallenges)
      else (Finished (Some out), activeChallenges)
  | Removing response out =>
      (Finished (Some out), answer_remove response activeChallenges)
  | Sweeping => (Finished None, cleanupExpiredChallenges now activeChallenges)
  | Finished out => (Finished out, activeChallenges)
  end.

(** What the scheduler and time do: thread [i] takes a step, or the clock
    moves on by [d] nanoseconds. *)
Inductive Event :=
| Run (i : nat)
| Tick (d : Z).

Definition step (ev : Event) (w : World) : World :=
  match ev with
  | Tick d =>
      {| registry := registry w; clock := clock w + Z.max 0 d; pool := pool w |}
  | Run i =>
      match pool w !! i with
      | None => w
      | Some t =>
          let '(t', activeChallenges) := run_thread t (clock w) (registry w) in
          {| registry := activeChallenges;
             clock := clock w;
             pool := <[i := t']> (pool w) |}
      end
  end.

Definition exec (schedule : list Event) (w : World) : World :=
  fold_left (λ w ev, step ev w) schedule w.

(** A thread that holds or has been answered on a record it found. *)
Definition observed_record (t : Thread) : bool :=
  match t with
  | Grading _ _ | Removing _ _ => true
  | Finished (Some (TimeExpired _))
  | Finished (Some (TargetAcquired _ _ _))
  | Finished (Some (TargetMissed _ _ _ _ _)) => true
  | _ => false
  end.

Definition observers (w : World) : nat :=
  length (filter (λ t, observed_record t = true) (pool w)).

(** A thread that was graded right or wrong. *)
Definition graded (t : Thread) : bool :=
  match t with
  | Finished (Some (TargetAcquired _ _ _))
  | Finished (Some (TargetMissed _ _ _ _ _)) => true
  | _ => false
  end.

(** ** Fixtures *)

(** The scenario of the specification: the player at the origin, [T1] at
    (10, 0, 0) and [T2] at (3, 0, 0), stored at clock reading [0]. *)
Definition origin : Coordinate := {| ID := "PLAYER"; X := 0; Y := 0; Zc := 0 |}.

Definition scenario_targets : list Coordinate :=
  [ {| ID := "T1"; X := 10; Y := 0; Zc := 0 |};
    {| ID := "T2"; X := 3; Y := 0; Zc := 0 |} ].

Definition scenario_challenge : TargetChallenge :=
  {| ChallengeID := "TARG-42";
     PlayerPos := origin;
     Targets := scenario_targets;
     Timestamp := 0 |}.

Definition scenario_record : ChallengeData :=
  {| Challenge := scenario_challenge;
     ExpectedAnswer := findClosestTarget origin scenario_targets;
     CreatedAt := 0 |}.

Definition scenario_registry : gmap string ChallengeData :=
  {["TARG-42" := scenario_record]}.

Definition submit (chosen : string) : TargetResponse :=
  {| RespChallengeID := "TARG-42"; ClosestID := chosen |}.

(** A deterministic stand-in for [math/rand]: the state counts the draws, an
    integer draw is the count reduced modulo [n], a float draw walks a table
    of numbers of [[0, 1)]. *)
Definition sample_floats : list float :=
  [0.875; 0.125; 0.5; 0.3125; 0.75; 0.25; 0; 0.625; 0.4375; 0.96875; 0.0625]%float.

Definition counting_Intn (n : Z) (r : nat) : Z * nat :=
  (Z.of_nat r `mod` n, S r).

Definition counting_Float64 (r : nat) : float * nat :=
  (default 0%float (sample_floats !! (r `mod` 11)%nat), S r).

Lemma counting_Intn_range (n : Z) (r : nat) :
  0 < n → 0 ≤ (counting_Intn n r).1 < n.
Proof. intros Hn. cbn [counting_Intn fst]. by apply Z.mod_pos_bound. Qed.

Lemma counting_Float64_range (r : nat) :
  (0 <=? (counting_Float64 r).1)%float = true ∧
  ((counting_Float64 r).1 <? 1)%float = true.
Proof.
  cbn [counting_Float64 fst].
  assert (Forall (λ f, (0 <=? f)%float = true ∧ (f <? 1)%float = true)
            sample_floats) as Hall.
  { unfold sample_floats. repeat constructor. }
  destruct (sample_floats !! (r `mod` 11)%nat) as [f|] eqn:Hf; cbn [default].
  - exact (proj1 (Forall_lookup _ _) Hall _ _ Hf).
  - by split.
Qed.

#[export] Instance CountingSource : RandSource nat := {|
  Intn := counting_Intn;
  Float64 := counting_Float64;
  Intn_range := counting_Intn_range;
  Float64_range := counting_Float64_range
|}.

(** Two submissions of the right answer for the one record of the scenario,
    half a second after it was stored, and a schedule that lets both look
    the record up before either removes it. *)
Definition race_world : World :=
  {| registry := scenario_registry;
     clock := 500000000;
     pool := [Answering (submit "T2"); Answering (submit "T2")] |}.

Definition race_schedule : list Event :=
  [Run 0; Run 1; Run 0; Run 1; Run 0; Run 1]%nat.

(** A submission and a sweep, just over two seconds after the record was
    stored. *)
Definition sweep_race_world : World :=
  {| registry := scenario_registry;
     clock := 2000000001;
     pool := [Answering (submit "T2"); Sweeping] |}.

(** ** Predicates of the statements *)

(** A point all of whose coordinates are finite binary64 numbers. *)
Definition finite_point (p : Coordinate) : bool :=
  is_finite (X p) && is_finite (Y p) && is_finite (Zc p).

(** The configured ranges: x and y within ±100, z within ±50. *)
Definition within_ranges (t : Coordinate) : bool :=
  (-100 <=? X t)%float && (X t <=? 100)%float &&
  (-100 <=? Y t)%float && (Y t <=? 100)%float &&
  (-50 <=? Zc t)%float && (Zc t <=? 50)%float.

(** The state of the scan of [findClosestTarget] after the prefix [seen]:
    the best candidate so far, [best] at index [i], is beaten by no candidate
    seen, and no earlier candidate ties with it. *)
Definition scan_inv (p : Coordinate) (seen : list Coordinate) (i : nat)
    (best : Coordinate) : Prop :=
  seen !! i = Some best ∧
  (∀ c, c ∈ seen → (distance3D p c <? distance3D p best)%float = false) ∧
  (∀ j c, (j < i)%nat → seen !! j = Some c →
     (distance3D p c =? distance3D p best)%float = false).

(** No thread of the pool is about to insert a challenge named [id]. *)
Definition no_issuing (id : string) (threads : list Thread) : Prop :=
  ∀ k challenge expectedAnswer,
    threads !! k = Some (Issuing challenge expectedAnswer) →
    ChallengeID challenge ≠ id.

(** * Binary64 arithmetic

    What the proofs below need of IEEE 754 binary64, derived from the
    specification of the primitive operations ([SpecFloat], [FloatAxioms]).
    - Rounding never exceeds a representable bound: [round_aux_le], and from
      it the range of [(f - 0.5) * c] for a draw [f] of [[0, 1)].
    - Subtraction the other way round gives the opposite number, so the
      squares are the same: [sub_square_sym].
    - Sums of squares of finite numbers and their square roots are numbers,
      not NaN: [norm_of_finite_signed].
    - [<] is a strict order that respects [==]: [ltb_irrefl], [ltb_trans],
      [eqb_ltb]. *)

(** *** Shifts and rounding *)

Lemma digits2_pos_bounds (m : positive) :
  2 ^ (Z.pos (digits2_pos m) - 1) ≤ Z.pos m < 2 ^ Z.pos (digits2_pos m).
Proof.
  induction m as [m IH|m IH|]; cbn [digits2_pos].
  - rewrite Pos2Z.inj_succ.
    replace (Z.succ (Z.pos (digits2_pos m)) - 1) with (Z.succ (Z.pos (digits2_pos m) - 1)) by lia.
    rewrite !Z.pow_succ_r by lia. lia.
  - rewrite Pos2Z.inj_succ.
    replace (Z.succ (Z.pos (digits2_pos m)) - 1) with (Z.succ (Z.pos (digits2_pos m) - 1)) by lia.
    rewrite !Z.pow_succ_r by lia. lia.
  - simpl. lia.
Qed.

(** What [k] right shifts keep of [M]: the quotient bracket, and a round or
    sticky bit only when something was lost. *)
Definition shr_inv (M k : Z) (mrs : shr_record) : Prop :=
  0 ≤ shr_m mrs ∧ shr_m mrs * 2 ^ k ≤ M < (shr_m mrs + 1) * 2 ^ k ∧
  (shr_r mrs || shr_s mrs = true → shr_m mrs * 2 ^ k < M).

Lemma shr_1_inv M k mrs :
  0 ≤ k → shr_inv M k mrs → shr_inv M (k + 1) (shr_1 mrs).
Proof.
  intros Hk (Hm & [Hlo Hhi] & Hrs). destruct mrs as [m r s].
  cbn [shr_m shr_r shr_s] in *.
  unfold shr_inv. rewrite Z.pow_add_r, Z.pow_1_r by lia.
  assert (0 < 2 ^ k) as Hpos by (apply Z.pow_pos_nonneg; lia).
  revert Hlo Hhi Hrs Hpos. generalize (2 ^ k). intros W Hlo Hhi Hrs Hpos.
  assert (r || s = true → orb r s = true) as Hor by done.
  destruct m as [|[p|p|]|p]; cbn [shr_1 shr_m shr_r shr_s].
  - split; [lia|]. split; [lia|]. rewrite orb_false_l. intros Hb.
    specialize (Hrs Hb). lia.
  - rewrite Pos2Z.inj_xI in Hlo, Hhi. split; [lia|]. split; [nia|]. intros _. nia.
  - rewrite Pos2Z.inj_xO in Hlo, Hhi, Hrs. split; [lia|]. split; [nia|].
    rewrite orb_false_l. intros Hb. specialize (Hrs Hb). nia.
  - split; [lia|]. split; [nia|]. intros _. nia.
  - lia.
Qed.

Lemma iter_shr_1_inv M (p : positive) : ∀ k mrs,
  0 ≤ k → shr_inv M k mrs → shr_inv M (k + Z.pos p) (SpecFloat.iter_pos shr_1 p mrs).
Proof.
  induction p as [p IH|p IH|]; intros k mrs Hk Hinv; cbn [SpecFloat.iter_pos].
  - replace (k + Z.pos p~1) with ((k + 1 + Z.pos p) + Z.pos p) by lia.
    apply IH; [lia|]. apply IH; [lia|]. by apply shr_1_inv.
  - replace (k + Z.pos p~0) with ((k + Z.pos p) + Z.pos p) by lia.
    apply IH; [lia|]. by apply IH.
  - by apply shr_1_inv.
Qed.

Lemma shr_exact_inv (m : Z) : 0 ≤ m → shr_inv m 0 (shr_record_of_loc m loc_Exact).
Proof. intros. unfold shr_inv. simpl. split; [done|]. split; [lia|]. discriminate. Qed.

(** [shr_fexp] of an exact non-negative mantissa. *)
Lemma shr_fexp_exact (m e : Z) :
  0 ≤ m →
  ∃ n, 0 ≤ n ∧ (shr_fexp prec emax m e loc_Exact).2 = e + n ∧
       shr_inv m n (shr_fexp prec emax m e loc_Exact).1 ∧
       (n = 0 ∨ e + n = fexp prec emax (Zdigits2 m + e)).
Proof.
  intros Hm. unfold shr_fexp, shr.
  destruct (fexp prec emax (Zdigits2 m + e) - e) as [|p|p] eqn:Hn.
  - exists 0. cbn [fst snd]. split_and!; [lia|lia|by apply shr_exact_inv|by left].
  - exists (Z.pos p). cbn [fst snd]. split_and!; [lia|lia| |right; lia].
    apply (iter_shr_1_inv m p 0); [lia|by apply shr_exact_inv].
  - exists 0. cbn [fst snd]. split_and!; [lia|lia|by apply shr_exact_inv|by left].
Qed.

Lemma fexp64 (x : Z) : fexp prec emax x = Z.max (x - 53) (-1074).
Proof. reflexivity. Qed.

Lemma round_nearest_even_cases (mrs : shr_record) :
  let m1 := round_nearest_even (shr_m mrs) (loc_of_shr_record mrs) in
  m1 = shr_m mrs ∨ (m1 = shr_m mrs + 1 ∧ shr_r mrs || shr_s mrs = true).
Proof.
  destruct mrs as [m [|] [|]]; cbn; try (by left); try (by right).
  destruct (Z.even m); [by left|by right].
Qed.

Lemma canonical64 (m : positive) (e : Z) :
  canonical_mantissa prec emax m e = true →
  Z.pos m < 2 ^ 53 ∧ -1074 ≤ e ∧ (-1074 < e → 2 ^ 52 ≤ Z.pos m).
Proof.
  unfold canonical_mantissa. rewrite fexp64. intros Hc%Z.eqb_eq.
  pose proof (digits2_pos_bounds m) as [Hlo Hhi].
  split_and!.
  - eapply Z.lt_le_trans; [exact Hhi|]. apply Z.pow_le_mono_r; lia.
  - lia.
  - intros He. replace (Z.pos (digits2_pos m)) with 53 in Hlo by lia. exact Hlo.
Qed.

Lemma pow2_pos (k : Z) : 0 ≤ k → 0 < 2 ^ k.
Proof. intros. apply Z.pow_pos_nonneg; lia. Qed.

(** Rounding to nearest does not step over a representable number: a
    mantissa [m * 2 ^ e] that is at most the canonical [mb * 2 ^ eb] rounds
    to a zero or a finite number of the sign given that is at most
    [mb * 2 ^ eb] too.  Values are compared on integers, scaled by
    [2 ^ (- L)] for an [L] below both exponents. *)
Lemma round_aux_le (s : bool) (m : positive) (e : Z) (mb : positive) (eb L : Z) :
  L ≤ e → L ≤ eb →
  canonical_mantissa prec emax mb eb = true →
  Z.pos m * 2 ^ (e - L) ≤ Z.pos mb * 2 ^ (eb - L) →
  Z.pos mb * 2 ^ (eb - L) < 2 ^ (972 - L) →
  match binary_round_aux prec emax s (Z.pos m) e loc_Exact with
  | S754_zero s' => s' = s
  | S754_finite s' m' e' =>
      s' = s ∧ L ≤ e' ∧ Z.pos m' * 2 ^ (e' - L) ≤ Z.pos mb * 2 ^ (eb - L)
  | _ => False
  end.
Proof.
  intros HLe HLb Hcan Hle Hsmall.
  destruct (canonical64 _ _ Hcan) as (Hmb & Heb & Hnorm).
  unfold binary_round_aux.
  destruct (shr_fexp_exact (Z.pos m) e) as (n & Hn & He' & Hinv & Hcase); [lia|].
  destruct (shr_fexp prec emax (Z.pos m) e loc_Exact) as [mrs' e'].
  cbn [fst snd] in He', Hinv. subst e'.
  destruct Hinv as (Hq & [Hqlo Hqhi] & Hrs).
  pose proof (round_nearest_even_cases mrs') as Hrne. cbv zeta in Hrne.
  set (m1 := round_nearest_even (shr_m mrs') (loc_of_shr_record mrs')) in *.
  set (q := shr_m mrs') in *.
  pose proof (pow2_pos (e - L) ltac:(lia)) as HP.
  pose proof (pow2_pos n Hn) as HN.
  assert (2 ^ (e + n - L) = 2 ^ n * 2 ^ (e - L)) as Hsplit.
  { rewrite <- Z.pow_add_r by lia. f_equal. lia. }
  assert (0 ≤ m1 ∧ m1 * 2 ^ (e + n - L) ≤ Z.pos mb * 2 ^ (eb - L)) as [Hm1 Hm1le].
  { destruct Hrne as [->|[-> Hbits]].
    - split; [done|]. rewrite Hsplit. nia.
    - split; [lia|]. specialize (Hrs Hbits).
      destruct (Z_le_gt_dec (e + n) eb) as [Hge|Hlt].
      + assert (2 ^ (eb - L) = 2 ^ (eb - (e + n)) * 2 ^ (e + n - L)) as HB.
        { rewrite <- Z.pow_add_r by lia. f_equal. lia. }
        pose proof (pow2_pos (eb - (e + n)) ltac:(lia)) as HD.
        rewrite HB in Hle |- *. rewrite Hsplit in *.
        revert Hle HD. generalize (2 ^ (eb - (e + n))). intros D Hle HD.
        assert (q < Z.pos mb * D) by nia. nia.
      + exfalso. destruct Hcase as [->|Hfexp].
        { rewrite Z.pow_0_r in *. lia. }
        rewrite fexp64 in Hfexp. cbn [Zdigits2] in Hfexp.
        pose proof (digits2_pos_bounds m) as [Hdlo _].
        assert (n = Z.pos (digits2_pos m) - 53) as Hnd by lia.
        assert (2 ^ (Z.pos (digits2_pos m) - 1) = 2 ^ 52 * 2 ^ n) as Hd.
        { rewrite <- Z.pow_add_r by lia. f_equal. lia. }
        rewrite Hd in Hdlo.
        assert (2 ^ 52 ≤ q) by nia.
        assert (2 ^ (e + n - L) = 2 * 2 ^ (e + n - 1 - L)) as Hhalf.
        { rewrite <- Z.pow_succ_r by lia. f_equal. lia. }
        assert (2 ^ (eb - L) ≤ 2 ^ (e + n - 1 - L)) as Hmono.
        { apply Z.pow_le_mono_r; lia. }
        pose proof (pow2_pos (eb - L) ltac:(lia)) as HBpos.
        rewrite Hsplit in Hhalf.
        change (2 ^ 53) with (2 * 2 ^ 52) in Hmb.
        revert Hle Hmono HBpos Hhalf Hmb H Hrs HP HN. clear.
        generalize (2 ^ (eb - L)) (2 ^ (e + n - 1 - L)) (2 ^ (e - L)) (2 ^ n) (2 ^ 52).
        intros B H1 P N T. intros. nia. }
  destruct (shr_fexp_exact m1 (e + n)) as (n' & Hn' & He'' & Hinv' & _); [lia|].
  destruct (shr_fexp prec emax m1 (e + n) loc_Exact) as [mrs'' e''].
  cbn [fst snd] in He'', Hinv'. subst e''.
  destruct Hinv' as (Hm2 & [Hm2lo _] & _).
  pose proof (pow2_pos n' Hn') as HN'.
  assert (2 ^ (e + n + n' - L) = 2 ^ n' * 2 ^ (e + n - L)) as Hsplit'.
  { rewrite <- Z.pow_add_r by lia. f_equal. lia. }
  pose proof (pow2_pos (e + n - L) ltac:(lia)) as HP'.
  destruct (shr_m mrs'') as [|p|p]; [done| |lia].
  assert (Z.pos p * 2 ^ (e + n + n' - L) ≤ Z.pos mb * 2 ^ (eb - L)) as Hfin.
  { rewrite Hsplit'. nia. }
  destruct (Z.leb_spec (e + n + n') (emax - prec)) as [_|Hover].
  - split_and!; [done|lia|done].
  - change (emax - prec) with 971 in Hover.
    assert (2 ^ (972 - L) ≤ 2 ^ (e + n + n' - L)) by (apply Z.pow_le_mono_r; lia).
    pose proof (pow2_pos (e + n + n' - L) ltac:(lia)). nia.
Qed.

(** [|x| ≤ mb * 2 ^ eb], on mantissas scaled by [2 ^ (- L)]; infinities and
    NaN are not bounded. *)
Definition sf_abs_le (x : spec_float) (mb : positive) (eb L : Z) : Prop :=
  match x with
  | S754_zero _ => True
  | S754_finite _ m e => L ≤ e ∧ Z.pos m * 2 ^ (e - L) ≤ Z.pos mb * 2 ^ (eb - L)
  | _ => False
  end.

Lemma round_aux_abs_le (s : bool) (m : positive) (e : Z) (mb : positive) (eb L : Z) :
  L ≤ e → L ≤ eb →
  canonical_mantissa prec emax mb eb = true →
  Z.pos m * 2 ^ (e - L) ≤ Z.pos mb * 2 ^ (eb - L) →
  Z.pos mb * 2 ^ (eb - L) < 2 ^ (972 - L) →
  sf_abs_le (binary_round_aux prec emax s (Z.pos m) e loc_Exact) mb eb L.
Proof.
  intros H1 H2 H3 H4 H5. pose proof (round_aux_le s m e mb eb L H1 H2 H3 H4 H5) as H.
  unfold sf_abs_le. destruct (binary_round_aux _ _ _ _ _ _); tauto.
Qed.

Lemma iter_xO_val (m d : positive) :
  Z.pos (Pos.iter xO m d) = Z.pos m * 2 ^ Z.pos d.
Proof.
  induction d as [|d IH] using Pos.peano_ind.
  - simpl. lia.
  - rewrite Pos.iter_succ, Pos2Z.inj_xO, IH, Pos2Z.inj_succ, Z.pow_succ_r by lia. lia.
Qed.

Lemma shl_align_val (mx : positive) (ex ez : Z) :
  ez ≤ ex →
  (shl_align mx ex ez).2 = ez ∧
  Z.pos (shl_align mx ex ez).1 = Z.pos mx * 2 ^ (ex - ez).
Proof.
  intros Hle. unfold shl_align. destruct (ez - ex) as [|d|d] eqn:Hd; cbn [fst snd].
  - replace (ex - ez) with 0 by lia. split; lia.
  - lia.
  - rewrite iter_xO_val. replace (ex - ez) with (Z.pos d) by lia. done.
Qed.

Lemma shl_align_keep (mx : positive) (ex ez : Z) :
  ex ≤ ez → shl_align mx ex ez = (mx, ex).
Proof.
  intros Hle. unfold shl_align. destruct (ez - ex) as [|d|d] eqn:Hd; try done. lia.
Qed.

(** [binary_round] of a mantissa bounded by a representable number. *)
Lemma round_abs_le (s : bool) (m : positive) (e : Z) (mb : positive) (eb L : Z) :
  L ≤ e → L ≤ eb → L ≤ -1074 →
  canonical_mantissa prec emax mb eb = true →
  Z.pos m * 2 ^ (e - L) ≤ Z.pos mb * 2 ^ (eb - L) →
  Z.pos mb * 2 ^ (eb - L) < 2 ^ (972 - L) →
  sf_abs_le (binary_round prec emax s m e) mb eb L.
Proof.
  intros HLe HLb HL Hcan Hle Hsmall. unfold binary_round.
  set (ez := fexp prec emax (Z.pos (digits2_pos m) + e)).
  assert (-1074 ≤ ez) by (unfold ez; rewrite fexp64; lia).
  destruct (Z_le_gt_dec e ez) as [Hk|Hs].
  - rewrite shl_align_keep by done. by apply round_aux_abs_le.
  - destruct (shl_align_val m e ez ltac:(lia)) as [He Hm].
    destruct (shl_align m e ez) as [mz ez']. cbn [fst snd] in He, Hm. subst ez'.
    apply round_aux_abs_le; [lia|done|done| |done].
    rewrite Hm, <- Z.mul_assoc, <- Z.pow_add_r by lia.
    replace (e - ez + (ez - L)) with (e - L) by lia. done.
Qed.

(** On canonical mantissas the order of the values is the order
    [SFcompare] computes on exponents and mantissas. *)
Lemma sf_leb_of_val (m1 : positive) (e1 : Z) (mb : positive) (eb L : Z) :
  canonical_mantissa prec emax m1 e1 = true →
  canonical_mantissa prec emax mb eb = true →
  L ≤ e1 → L ≤ eb →
  Z.pos m1 * 2 ^ (e1 - L) ≤ Z.pos mb * 2 ^ (eb - L) →
  SFleb (S754_finite false m1 e1) (S754_finite false mb eb) = true ∧
  SFleb (S754_finite true mb eb) (S754_finite true m1 e1) = true.
Proof.
  intros Hc1 Hcb HL1 HLb Hle.
  destruct (canonical64 _ _ Hc1) as (Hm1 & He1 & Hn1).
  destruct (canonical64 _ _ Hcb) as (Hmb & Heb & Hnb).
  assert (e1 < eb ∨ (e1 = eb ∧ (Z.pos m1 ≤ Z.pos mb))) as Hlex.
  { destruct (Z.lt_trichotomy e1 eb) as [?|[->|Hgt]]; [by left| |].
    - right. split; [done|]. pose proof (pow2_pos (eb - L) ltac:(lia)). nia.
    - exfalso. specialize (Hn1 ltac:(lia)).
      assert (2 ^ (e1 - L) = 2 ^ (e1 - eb) * 2 ^ (eb - L)) as Hs.
      { rewrite <- Z.pow_add_r by lia. f_equal. lia. }
      assert (2 ^ 1 ≤ 2 ^ (e1 - eb)) as Hd by (apply Z.pow_le_mono_r; lia).
      pose proof (pow2_pos (eb - L) ltac:(lia)) as HP.
      rewrite Hs in Hle. change (2 ^ 53) with (2 * 2 ^ 52) in Hmb.
      change (2 ^ 1) with 2 in Hd.
      revert Hle Hd HP Hmb Hn1. clear.
      generalize (2 ^ (e1 - eb)) (2 ^ (eb - L)) (2 ^ 52). intros D P T. intros.
      assert (2 * T ≤ Z.pos m1 * D) by nia.
      assert (2 * T * P ≤ Z.pos m1 * D * P) by nia.
      assert (Z.pos mb * P < 2 * T * P) by nia. lia. }
  unfold SFleb, SFcompare.
  destruct Hlex as [Hlt|[-> Hm]].
  - rewrite (proj2 (Z.compare_lt_iff e1 eb) Hlt).
    rewrite (proj2 (Z.compare_gt_iff eb e1) Hlt). done.
  - rewrite Z.compare_refl.
    change (Pos.compare_cont Eq m1 mb) with (Z.pos m1 ?= Z.pos mb).
    change (Pos.compare_cont Eq mb m1) with (Z.pos mb ?= Z.pos m1).
    destruct (Z.compare_spec (Z.pos m1) (Z.pos mb)) as [Heq|?|?]; [|split; [done|]|lia].
    + rewrite Heq, Z.compare_refl. done.
    + rewrite (proj2 (Z.compare_gt_iff (Z.pos mb) (Z.pos m1))) by lia. done.
Qed.

Lemma valid_finite64 (s : bool) (m : positive) (e : Z) :
  valid_binary (S754_finite s m e) = true →
  canonical_mantissa prec emax m e = true ∧ e ≤ 971.
Proof.
  cbn [SpecFloat.valid_binary]. unfold bounded. intros [Hc He%Z.leb_le]%andb_prop.
  split; [done|]. exact He.
Qed.

Lemma sf_ltb_finite_pos (m1 : positive) (e1 : Z) (m2 : positive) (e2 : Z) :
  SFltb (S754_finite false m1 e1) (S754_finite false m2 e2) = true →
  e1 < e2 ∨ (e1 = e2 ∧ Z.pos m1 < Z.pos m2).
Proof.
  unfold SFltb, SFcompare.
  change (Pos.compare_cont Eq m1 m2) with (Z.pos m1 ?= Z.pos m2).
  destruct (Z.compare_spec e1 e2) as [Heq|Hl|Hg]; [|by left|discriminate].
  destruct (Z.compare_spec (Z.pos m1) (Z.pos m2)); try discriminate.
  intros _. by right.
Qed.

(** [x - 0.5] for a positive [x] below one: the aligned mantissas differ by
    at most the mantissa of [0.5], and rounding keeps the bound. *)
Lemma sub_half_bound_sf (m : positive) (e : Z) (mh : positive) :
  Z.pos mh = 2 ^ 52 →
  canonical_mantissa prec emax m e = true →
  canonical_mantissa prec emax mh (-53) = true →
  e ≤ -53 →
  sf_abs_le (SF64sub (S754_finite false m e) (S754_finite false mh (-53)))
    mh (-53) (-1074).
Proof.
  intros Hmh Hcan Hcanh He53.
  destruct (canonical64 _ _ Hcan) as (Hm & He & Hnorm).
  unfold SF64sub, SFsub. cbv zeta.
  rewrite (Z.min_l e (-53)) by lia.
  rewrite (shl_align_keep m e e) by lia.
  destruct (shl_align_val mh (-53) e He53) as [_ Hh].
  cbn [fst snd cond_Zopp].
  set (h := Z.pos (shl_align mh (-53) e).1) in *.
  rewrite Hmh in Hh.
  assert (2 ^ (-53 - e) * 2 ^ (e + 1074) = 2 ^ 1021) as Hpow.
  { rewrite <- Z.pow_add_r by lia. f_equal. lia. }
  pose proof (pow2_pos (-53 - e) ltac:(lia)) as HS.
  pose proof (pow2_pos (e + 1074) ltac:(lia)) as HP.
  assert (∀ p : positive, Z.pos p ≤ h →
    Z.pos p * 2 ^ (e - -1074) ≤ Z.pos mh * 2 ^ (-53 - -1074)) as Hval.
  { intros p Hp. replace (e - -1074) with (e + 1074) by lia.
    replace (-53 - -1074) with 1021 by lia. rewrite <- Hpow, Hmh.
    rewrite Hh in Hp.
    revert Hp HP. clear. generalize (2 ^ 52) (2 ^ (-53 - e)) (2 ^ (e + 1074)).
    intros T S P. intros. nia. }
  assert (Z.pos mh * 2 ^ (-53 - -1074) < 2 ^ (972 - -1074)) as Hsmall.
  { rewrite Hmh, <- Z.pow_add_r by lia. apply Z.pow_lt_mono_r; lia. }
  assert (Z.pos m < 2 * h) as Hmh2.
  { rewrite Hh. change (2 ^ 53) with (2 * 2 ^ 52) in Hm. nia. }
  unfold binary_normalize.
  destruct (Z.pos m - h) as [|p|p] eqn:HM; [done| |].
  - apply round_abs_le; [lia|lia|lia|done| |done]. apply Hval. lia.
  - apply round_abs_le; [lia|lia|lia|done| |done]. apply Hval. lia.
Qed.

Lemma half_shift_bound (f half : float) (mh : positive) :
  Prim2SF half = S754_finite false mh (-53) →
  Prim2SF 1 = S754_finite false mh (-52) →
  Z.pos mh = 2 ^ 52 →
  (0 <=? f)%float = true → (f <? 1)%float = true →
  sf_abs_le (Prim2SF (f - half)) mh (-53) (-1074).
Proof.
  intros Hhalf Hone Hmh. rewrite leb_spec, ltb_spec, sub_spec, Hhalf, Hone.
  pose proof (Prim2SF_valid f) as Hv.
  pose proof (Prim2SF_valid half) as Hvh. rewrite Hhalf in Hvh.
  destruct (valid_finite64 _ _ _ Hvh) as [Hcanh _].
  replace (Prim2SF 0) with (S754_zero false) by (vm_compute; reflexivity).
  destruct (Prim2SF f) as [s|s| |s m e].
  - intros _ _. cbn. split; lia.
  - destruct s; [discriminate|]. intros _. discriminate.
  - discriminate.
  - destruct s; [discriminate|]. intros _ Hlt.
    destruct (valid_finite64 _ _ _ Hv) as [Hcan _].
    destruct (canonical64 _ _ Hcan) as (Hm & He & Hnorm).
    apply sub_half_bound_sf; [done|done|done|].
    destruct (sf_ltb_finite_pos _ _ _ _ Hlt) as [?|[Heq Hlt']]; [lia|].
    specialize (Hnorm ltac:(lia)). lia.
Qed.

Lemma scale_bound_sf (D : spec_float) (mh mc : positive) (ec : Z) :
  Z.pos mh = 2 ^ 52 →
  sf_abs_le D mh (-53) (-1074) →
  canonical_mantissa prec emax mc (ec - 1) = true →
  ec ≤ 920 →
  sf_abs_le (SF64mul D (S754_finite false mc ec)) mc (ec - 1) (ec - 1074).
Proof.
  intros Hmh HD Hcan Hec.
  destruct (canonical64 _ _ Hcan) as (Hmc & _ & _).
  destruct D as [s|s| |s md ed]; try done.
  cbn [sf_abs_le] in HD. destruct HD as [Hed Hval].
  unfold SF64mul, SFmul.
  assert (2 ^ (ec - 1 - (ec - 1074)) = 2 ^ 1073) as E1 by (f_equal; lia).
  assert (2 ^ (ed + ec - (ec - 1074)) = 2 ^ (ed - -1074)) as E2 by (f_equal; lia).
  pose proof (pow2_pos (ed - -1074) ltac:(lia)) as HP.
  apply round_aux_abs_le; [lia|lia|done| |].
  - rewrite E1, E2, Pos2Z.inj_mul.
    replace (-53 - -1074) with 1021 in Hval by lia.
    rewrite Hmh, <- Z.pow_add_r in Hval by lia.
    change (52 + 1021) with 1073 in Hval.
    revert Hval HP. clear. generalize (2 ^ (ed - -1074)) (2 ^ 1073).
    intros P T. intros. nia.
  - rewrite E1.
    assert (2 ^ 1126 ≤ 2 ^ (972 - (ec - 1074))) by (apply Z.pow_le_mono_r; lia).
    assert (2 ^ 53 * 2 ^ 1073 = 2 ^ 1126) as E3 by (rewrite <- Z.pow_add_r by lia; done).
    pose proof (pow2_pos 1073 ltac:(lia)) as HT.
    revert Hmc H E3 HT. clear.
    generalize (2 ^ 1126) (2 ^ (972 - (ec - 1074))) (2 ^ 53) (2 ^ 1073).
    intros. nia.
Qed.

(** [(f - 0.5) * c] for a draw [f] in [[0, 1)] lies within [± c / 2]. *)
Lemma scaled_draw_bound (f half c lo hi : float) (mh mc : positive) (ec : Z) :
  Prim2SF half = S754_finite false mh (-53) →
  Prim2SF 1 = S754_finite false mh (-52) →
  Z.pos mh = 2 ^ 52 →
  Prim2SF c = S754_finite false mc ec →
  Prim2SF lo = S754_finite true mc (ec - 1) →
  Prim2SF hi = S754_finite false mc (ec - 1) →
  ec ≤ 920 →
  (0 <=? f)%float = true → (f <? 1)%float = true →
  (lo <=? (f - half) * c)%float = true ∧ ((f - half) * c <=? hi)%float = true.
Proof.
  intros Hhalf Hone Hmh Hc Hlo Hhi Hec H0 H1.
  pose proof (half_shift_bound f half mh Hhalf Hone Hmh H0 H1) as HD.
  pose proof (Prim2SF_valid hi) as Hvh. rewrite Hhi in Hvh.
  destruct (valid_finite64 _ _ _ Hvh) as [Hcan _].
  pose proof (scale_bound_sf _ mh mc ec Hmh HD Hcan Hec) as HX.
  pose proof (Prim2SF_valid ((f - half) * c)) as Hv.
  rewrite !leb_spec, Hlo, Hhi. rewrite mul_spec, Hc in Hv |- *.
  destruct (SF64mul (Prim2SF (f - half)) (S754_finite false mc ec))
    as [s|s| |s m e]; try done.
  destruct HX as [He Hval].
  destruct (valid_finite64 _ _ _ Hv) as [Hcx _].
  destruct (canonical64 _ _ Hcan) as (_ & Hecl & _).
  destruct (sf_leb_of_val m e mc (ec - 1) (ec - 1074) Hcx Hcan He ltac:(lia) Hval)
    as [Hpos Hneg].
  destruct s; [split; [exact Hneg|done]|split; [done|exact Hpos]].
Qed.

Lemma coordinate_range_xy (f : float) :
  (0 <=? f)%float = true → (f <? 1)%float = true →
  (-100 <=? (f - 0.5) * 200)%float = true ∧ ((f - 0.5) * 200 <=? 100)%float = true.
Proof.
  apply (scaled_draw_bound f 0.5 200 (-100) 100 4503599627370496 7036874417766400 (-45));
    try (vm_compute; reflexivity). lia.
Qed.

Lemma coordinate_range_z (f : float) :
  (0 <=? f)%float = true → (f <? 1)%float = true →
  (-50 <=? (f - 0.5) * 100)%float = true ∧ ((f - 0.5) * 100 <=? 50)%float = true.
Proof.
  apply (scaled_draw_bound f 0.5 100 (-50) 50 4503599627370496 7036874417766400 (-46));
    try (vm_compute; reflexivity). lia.
Qed.

(** *** Signs and NaN through rounding *)

Lemma shr_1_nonneg (mrs : shr_record) : 0 ≤ shr_m mrs → 0 ≤ shr_m (shr_1 mrs).
Proof. destruct mrs as [[|[p|p|]|p] r s]; cbn; lia. Qed.

Lemma iter_shr_1_nonneg (p : positive) : ∀ mrs,
  0 ≤ shr_m mrs → 0 ≤ shr_m (SpecFloat.iter_pos shr_1 p mrs).
Proof.
  induction p as [p IH|p IH|]; intros mrs Hm; cbn [SpecFloat.iter_pos].
  - apply IH, IH. by apply shr_1_nonneg.
  - by apply IH, IH.
  - by apply shr_1_nonneg.
Qed.

Lemma shr_fexp_nonneg (m e : Z) (l : location) :
  0 ≤ m → 0 ≤ shr_m (shr_fexp prec emax m e l).1.
Proof.
  intros Hm. unfold shr_fexp, shr.
  assert (0 ≤ shr_m (shr_record_of_loc m l)) by (by destruct l as [|[| |]]).
  destruct (fexp prec emax (Zdigits2 m + e) - e); cbn [fst]; try done.
  by apply iter_shr_1_nonneg.
Qed.

(** The sign class of a result: a zero, a finite number or an infinity of
    sign [s]; never NaN. *)
Definition sf_signed (s : bool) (x : spec_float) : Prop :=
  match x with
  | S754_zero s' | S754_infinity s' | S754_finite s' _ _ => s' = s
  | S754_nan => False
  end.

Lemma round_aux_signed (s : bool) (m e : Z) (l : location) :
  0 ≤ m → sf_signed s (binary_round_aux prec emax s m e l).
Proof.
  intros Hm. unfold binary_round_aux.
  pose proof (shr_fexp_nonneg m e l Hm) as H1.
  destruct (shr_fexp prec emax m e l) as [mrs' e']. cbn [fst] in H1.
  pose proof (round_nearest_even_cases mrs') as Hr. cbv zeta in Hr.
  assert (0 ≤ round_nearest_even (shr_m mrs') (loc_of_shr_record mrs')) as H2
    by (destruct Hr as [->|[-> _]]; lia).
  pose proof (shr_fexp_nonneg _ e' loc_Exact H2) as H3.
  destruct (shr_fexp prec emax _ e' loc_Exact) as [mrs'' e'']. cbn [fst] in H3.
  destruct (shr_m mrs'') as [|p|p]; [done| |lia].
  by destruct (e'' <=? emax - prec).
Qed.

Lemma round_aux_opp (s : bool) (m e : Z) (l : location) :
  binary_round_aux prec emax (negb s) m e l =
  SFopp (binary_round_aux prec emax s m e l).
Proof.
  unfold binary_round_aux.
  destruct (shr_fexp prec emax m e l) as [mrs' e'].
  destruct (shr_fexp prec emax _ e' loc_Exact) as [mrs'' e''].
  destruct (shr_m mrs'') as [|p|p]; try done.
  by destruct (e'' <=? emax - prec).
Qed.

Lemma round_signed (s : bool) (m : positive) (e : Z) :
  sf_signed s (binary_round prec emax s m e).
Proof.
  unfold binary_round. destruct (shl_align m e _) as [mz ez].
  by apply round_aux_signed.
Qed.

Lemma round_opp (s : bool) (m : positive) (e : Z) :
  binary_round prec emax (negb s) m e = SFopp (binary_round prec emax s m e).
Proof.
  unfold binary_round. destruct (shl_align m e _) as [mz ez].
  apply round_aux_opp.
Qed.

(** *** Subtraction the other way round *)

(** [y] is [- x], or both are zeros (whose signs rounding may set apart). *)
Definition sf_mirror (x y : spec_float) : Prop :=
  y = SFopp x ∨ (∃ s s', x = S754_zero s ∧ y = S754_zero s').

Lemma normalize_mirror (m e : Z) :
  sf_mirror (binary_normalize prec emax m e false)
            (binary_normalize prec emax (- m) e false).
Proof.
  destruct m as [|p|p]; cbn [Z.opp binary_normalize].
  - right. eauto.
  - left. apply (round_opp false).
  - left. apply (round_opp true).
Qed.

Lemma SFsub_mirror (x y : spec_float) : sf_mirror (SF64sub x y) (SF64sub y x).
Proof.
  unfold SF64sub.
  destruct x as [sx|sx| |sx mx ex], y as [sy|sy| |sy my ey];
    try (left; by repeat match goal with s : bool |- _ => destruct s end);
    try (right; by repeat match goal with s : bool |- _ => destruct s end; eauto).
  cbn [SFsub]. cbv zeta. rewrite (Z.min_comm ey ex).
  match goal with |- sf_mirror (binary_normalize _ _ (?a - ?b) _ _) _ =>
    replace (b - a) with (- (a - b)) by lia end.
  apply normalize_mirror.
Qed.

Lemma SFmul_mirror (x y : spec_float) :
  sf_mirror x y → SF64mul x x = SF64mul y y.
Proof.
  intros [->|(s & s' & -> & ->)].
  - by destruct x as [[]|[]| |[] m e].
  - by destruct s, s'.
Qed.

Lemma sub_square_sym (x y : float) :
  ((x - y) * (x - y))%float = ((y - x) * (y - x))%float.
Proof.
  apply Prim2SF_inj. rewrite !mul_spec, !sub_spec.
  apply SFmul_mirror, SFsub_mirror.
Qed.

(** *** Finite inputs give a number *)

(** A zero or a finite number. *)
Definition sf_finite (x : spec_float) : bool :=
  match x with
  | S754_zero _ | S754_finite _ _ _ => true
  | _ => false
  end.

Lemma is_finite_spec (x : float) : is_finite x = sf_finite (Prim2SF x).
Proof.
  unfold is_finite, is_nan, is_infinity.
  rewrite !FloatAxioms.eqb_spec, abs_spec.
  replace (Prim2SF infinity) with (S754_infinity false) by (vm_compute; reflexivity).
  destruct (Prim2SF x) as [[]|[]| |[] m e]; try reflexivity.
  all: unfold SFeqb, SFcompare, SFabs; rewrite Z.compare_refl;
    change (Pos.compare_cont Eq m m) with (Z.pos m ?= Z.pos m);
    by rewrite Z.compare_refl.
Qed.

Lemma SFsub_finite_not_nan (x y : spec_float) :
  sf_finite x = true → sf_finite y = true → SF64sub x y ≠ S754_nan.
Proof.
  unfold SF64sub.
  destruct x as [sx|sx| |sx mx ex], y as [sy|sy| |sy my ey]; try done; intros _ _.
  - by destruct sx, sy.
  - cbn [SFsub]. cbv zeta. unfold binary_normalize.
    destruct (_ - _) as [|p|p]; [done| |].
    + pose proof (round_signed false p (Z.min ex ey)) as H.
      by destruct (binary_round prec emax false p _).
    + pose proof (round_signed true p (Z.min ex ey)) as H.
      by destruct (binary_round prec emax true p _).
Qed.

Lemma SFmul_self_signed (x : spec_float) :
  x ≠ S754_nan → sf_signed false (SF64mul x x).
Proof.
  destruct x as [[]|[]| |s m e]; try done. intros _.
  unfold SF64mul, SFmul. replace (xorb s s) with false by (by destruct s).
  by apply round_aux_signed.
Qed.

Lemma SFadd_signed (x y : spec_float) :
  sf_signed false x → sf_signed false y → sf_signed false (SF64add x y).
Proof.
  destruct x as [sx|sx| |sx mx ex], y as [sy|sy| |sy my ey];
    cbn [sf_signed]; try done; intros -> ->; try done.
  unfold SF64add, SFadd. cbv zeta. cbn [cond_Zopp]. apply round_signed.
Qed.

Lemma SFsqrt_signed (x : spec_float) :
  sf_signed false x → sf_signed false (SF64sqrt x).
Proof.
  destruct x as [sx|sx| |sx mx ex]; cbn [sf_signed]; try done; intros ->; try done.
  unfold SF64sqrt, SFsqrt, SFsqrt_core_binary. cbv zeta.
  set (m' := match _ - _ with Z.pos _ => _ | Z0 => _ | Z.neg _ => _ end).
  assert (0 ≤ m') as Hm'.
  { unfold m'. destruct (_ - _) as [|p|p]; [lia| |lia].
    apply Z.shiftl_nonneg. lia. }
  pose proof (Z.sqrtrem_spec m' Hm') as Hs.
  destruct (Z.sqrtrem m') as [q r].
  apply round_aux_signed. lia.
Qed.

Lemma SFeqb_refl (x : spec_float) : x ≠ S754_nan → SFeqb x x = true.
Proof.
  destruct x as [[]|[]| |[] m e]; try done; intros _.
  all: unfold SFeqb, SFcompare; rewrite Z.compare_refl;
    change (Pos.compare_cont Eq m m) with (Z.pos m ?= Z.pos m);
    by rewrite Z.compare_refl.
Qed.

Lemma sf_signed_not_nan (s : bool) (x : spec_float) : sf_signed s x → x ≠ S754_nan.
Proof. by destruct x. Qed.

(** [sqrt (dx*dx + dy*dy + dz*dz)] of differences of finite numbers is a
    number. *)
Lemma norm_of_finite_signed (x1 x2 y1 y2 z1 z2 : float) :
  is_finite x1 = true → is_finite x2 = true →
  is_finite y1 = true → is_finite y2 = true →
  is_finite z1 = true → is_finite z2 = true →
  sf_signed false (Prim2SF (sqrt
    ((x1 - x2) * (x1 - x2) + (y1 - y2) * (y1 - y2) + (z1 - z2) * (z1 - z2)))).
Proof.
  rewrite !is_finite_spec. intros.
  rewrite sqrt_spec, !add_spec, !mul_spec, !sub_spec.
  apply SFsqrt_signed. repeat apply SFadd_signed;
    by apply SFmul_self_signed, SFsub_finite_not_nan.
Qed.

Lemma sub_self_finite (x : float) : is_finite x = true → (x - x)%float = 0%float.
Proof.
  rewrite is_finite_spec. intros Hx. apply Prim2SF_inj. rewrite sub_spec.
  replace (Prim2SF 0) with (S754_zero false) by (vm_compute; reflexivity).
  unfold SF64sub. destruct (Prim2SF x) as [[]|[]| |s m e]; try done.
  cbn [SFsub]. cbv zeta. by rewrite Z.sub_diag.
Qed.

(** *** The order of binary64 *)

(** [SFcompare] on finite numbers, spelled on signs, exponents and
    mantissas. *)
Definition fin_compare (s1 : bool) (m1 : positive) (e1 : Z)
    (s2 : bool) (m2 : positive) (e2 : Z) : comparison :=
  match s1, s2 with
  | true, false => Lt
  | false, true => Gt
  | false, false =>
      match e1 ?= e2 with Lt => Lt | Gt => Gt | Eq => Z.pos m1 ?= Z.pos m2 end
  | true, true =>
      match e1 ?= e2 with
      | Lt => Gt | Gt => Lt | Eq => CompOpp (Z.pos m1 ?= Z.pos m2)
      end
  end.

Lemma SFcompare_finite s1 m1 e1 s2 m2 e2 :
  SFcompare (S754_finite s1 m1 e1) (S754_finite s2 m2 e2) =
  Some (fin_compare s1 m1 e1 s2 m2 e2).
Proof. reflexivity. Qed.

Lemma fin_compare_Lt s1 m1 e1 s2 m2 e2 :
  fin_compare s1 m1 e1 s2 m2 e2 = Lt ↔
  match s1, s2 with
  | true, false => True
  | false, true => False
  | false, false => e1 < e2 ∨ (e1 = e2 ∧ Z.pos m1 < Z.pos m2)
  | true, true => e2 < e1 ∨ (e1 = e2 ∧ Z.pos m2 < Z.pos m1)
  end.
Proof.
  unfold fin_compare. destruct s1, s2; try done.
  - destruct (Z.compare_spec e1 e2); [|split; [done|lia]|split; [lia|done]].
    destruct (Z.compare_spec (Z.pos m1) (Z.pos m2)); cbn; split; try done; lia.
  - destruct (Z.compare_spec e1 e2); [|split; [lia|done]|split; [done|lia]].
    destruct (Z.compare_spec (Z.pos m1) (Z.pos m2)); cbn; split; try done; lia.
Qed.

Lemma fin_compare_Eq s1 m1 e1 s2 m2 e2 :
  fin_compare s1 m1 e1 s2 m2 e2 = Eq ↔ s1 = s2 ∧ e1 = e2 ∧ m1 = m2.
Proof.
  unfold fin_compare. destruct s1, s2; try (split; [done|]; intros (? & _); done).
  - destruct (Z.compare_spec e1 e2); [|split; [done|lia]..].
    destruct (Z.compare_spec (Z.pos m1) (Z.pos m2)); cbn; split; try done;
      try (intros (_ & _ & ->); lia). intros _. split_and!; [done..|lia].
  - destruct (Z.compare_spec e1 e2); [|split; [done|lia]..].
    destruct (Z.compare_spec (Z.pos m1) (Z.pos m2)); cbn; split; try done;
      try (intros (_ & _ & ->); lia). intros _. split_and!; [done..|lia].
Qed.

Local Ltac sf_cases :=
  unfold SFltb, SFeqb; rewrite ?SFcompare_finite;
  try (cbn [SFcompare];
       repeat match goal with s : bool |- _ => destruct s end; done).

Lemma SFltb_irrefl (x : spec_float) : SFltb x x = false.
Proof.
  destruct x as [s|s| |s m e]; sf_cases.
  destruct (fin_compare _ _ _ _ _ _) eqn:E; try done.
  apply fin_compare_Lt in E. destruct s; lia.
Qed.

Lemma SFltb_trans (x y z : spec_float) :
  SFltb x y = true → SFltb y z = true → SFltb x z = true.
Proof.
  destruct x as [sx|sx| |sx mx ex], y as [sy|sy| |sy my ey],
    z as [sz|sz| |sz mz ez]; sf_cases.
  destruct (fin_compare sx mx ex sy my ey) eqn:E1; try done.
  destruct (fin_compare sy my ey sz mz ez) eqn:E2; try done.
  intros _ _. apply fin_compare_Lt in E1, E2.
  assert (fin_compare sx mx ex sz mz ez = Lt) as ->; [|done].
  apply fin_compare_Lt. destruct sx, sy, sz; try done; lia.
Qed.

Lemma SFeqb_ltb (x y z : spec_float) :
  SFeqb x y = true → SFltb y z = true → SFltb x z = true.
Proof.
  destruct x as [sx|sx| |sx mx ex], y as [sy|sy| |sy my ey],
    z as [sz|sz| |sz mz ez]; sf_cases.
  destruct (fin_compare sx mx ex sy my ey) eqn:E1; try done.
  destruct (fin_compare sy my ey sz mz ez) eqn:E2; try done.
  intros _ _. apply fin_compare_Eq in E1 as (-> & -> & ->). by rewrite E2.
Qed.

Lemma ltb_irrefl (x : float) : (x <? x)%float = false.
Proof. rewrite FloatAxioms.ltb_spec. apply SFltb_irrefl. Qed.

Lemma ltb_trans (x y z : float) :
  (x <? y)%float = true → (y <? z)%float = true → (x <? z)%float = true.
Proof. rewrite !FloatAxioms.ltb_spec. apply SFltb_trans. Qed.

Lemma eqb_ltb (x y z : float) :
  (x =? y)%float = true → (y <? z)%float = true → (x <? z)%float = true.
Proof. rewrite FloatAxioms.eqb_spec, !FloatAxioms.ltb_spec. apply SFeqb_ltb. Qed.

(** * Geometry *)

(** [distance3D] is the same binary64 value both ways round, NaN included. *)
Lemma distance3D_sym (a b : Coordinate) : distance3D a b = distance3D b a.
Proof.
  unfold distance3D. cbv zeta.
  by rewrite (sub_square_sym (X a)), (sub_square_sym (Y a)),
    (sub_square_sym (Zc a)).
Qed.

(** Between finite points the distance is a number (possibly [+∞], on
    overflow), so it compares equal to itself. *)
Lemma distance3D_number (a b : Coordinate) :
  finite_point a = true → finite_point b = true →
  (distance3D a b =? distance3D a b)%float = true.
Proof.
  unfold finite_point.
  intros [[??]%andb_prop ?]%andb_prop [[??]%andb_prop ?]%andb_prop.
  rewrite FloatAxioms.eqb_spec. apply SFeqb_refl.
  apply (sf_signed_not_nan false). unfold distance3D. cbv zeta.
  by apply norm_of_finite_signed.
Qed.

Lemma distance3D_self (a : Coordinate) :
  finite_point a = true → distance3D a a = 0%float.
Proof.
  unfold finite_point. intros [[??]%andb_prop ?]%andb_prop.
  unfold distance3D. cbv zeta. rewrite !sub_self_finite by done.
  vm_compute. reflexivity.
Qed.

(** C8 as stated fails: for the point [a] with [x = +∞], [a.X - a.X] is NaN,
    so [distance3D a a] is NaN, which is neither [== 0] nor [==] itself. *)
Lemma distance3D_infinite_point :
  let a := {| ID := "a"; X := infinity; Y := 0; Zc := 0 |} in
  (distance3D a a =? 0)%float = false ∧
  (distance3D a a =? distance3D a a)%float = false.
Proof. vm_compute. by split. Qed.

(** C8 (amended): for every pair of points [a], [b] whose coordinates are
    finite binary64 numbers, [distance3D a b == distance3D b a], and
    [distance3D a a == 0]. *)
Theorem distance3D_finite_points (a b : Coordinate) :
  finite_point a = true → finite_point b = true →
  (distance3D a b =? distance3D b a)%float = true ∧
  (distance3D a a =? 0)%float = true.
Proof.
  intros Ha Hb. split.
  - rewrite <- (distance3D_sym a b). by apply distance3D_number.
  - by rewrite distance3D_self.
Qed.

Lemma distance3D_finite_points_witness :
  (distance3D origin {| ID := "T2"; X := 3; Y := 0; Zc := 0 |} =?
   distance3D {| ID := "T2"; X := 3; Y := 0; Zc := 0 |} origin)%float = true ∧
  (distance3D origin origin =? 0)%float = true.
Proof.
  apply (distance3D_finite_points origin
           {| ID := "T2"; X := 3; Y := 0; Zc := 0 |});
    vm_compute; reflexivity.
Defined.

Example distance3D_3_4_12 :
  distance3D origin {| ID := "T"; X := 3; Y := 4; Zc := 12 |} = 13%float.
Proof. vm_compute. reflexivity. Qed.

(** ** The nearest target *)

Lemma closest_scan_spec (p : Coordinate) (rest : list Coordinate) :
  ∀ seen i best, scan_inv p seen i best →
  ∃ i' best', scan_inv p (seen ++ rest) i' best' ∧
    closest_scan p (ID best) (distance3D p best) rest = ID best'.
Proof.
  induction rest as [|t rest IH]; intros seen i best Hinv.
  - exists i, best. by rewrite app_nil_r.
  - cbn [closest_scan]. cbv zeta.
    replace (seen ++ t :: rest) with ((seen ++ [t]) ++ rest)
      by (by rewrite <- app_assoc).
    destruct Hinv as (Hi & Hmin & Htie).
    destruct (distance3D p t <? distance3D p best)%float eqn:Hlt.
    + apply (IH (seen ++ [t]) (length seen) t). split_and!.
      * by apply list_lookup_middle.
      * intros c [Hc| ->%list_elem_of_singleton]%elem_of_app.
        -- destruct (distance3D p c <? distance3D p t)%float eqn:Hct; [|done].
           pose proof (Hmin c Hc) as Hc'.
           by rewrite (ltb_trans _ _ _ Hct Hlt) in Hc'.
        -- apply ltb_irrefl.
      * intros j c Hj Hjc. rewrite lookup_app_l in Hjc by lia.
        destruct (distance3D p c =? distance3D p t)%float eqn:Heq; [|done].
        assert (c ∈ seen) as Hc by (by eapply list_elem_of_lookup_2).
        pose proof (Hmin c Hc) as Hc'.
        by rewrite (eqb_ltb _ _ _ Heq Hlt) in Hc'.
    + apply (IH (seen ++ [t]) i best). split_and!.
      * by apply lookup_app_l_Some.
      * intros c [Hc| ->%list_elem_of_singleton]%elem_of_app;
          [by apply Hmin|done].
      * intros j c Hj Hjc. apply (Htie j c Hj).
        apply lookup_lt_Some in Hi. by rewrite lookup_app_l in Hjc by lia.
Qed.

Lemma findClosestTarget_scan (p : Coordinate) (targets : list Coordinate) :
  targets ≠ [] →
  ∃ i t, targets !! i = Some t ∧
    findClosestTarget p targets = ID t ∧
    (∀ c, c ∈ targets → (distance3D p c <? distance3D p t)%float = false) ∧
    (∀ j c, (j < i)%nat → targets !! j = Some c →
       (distance3D p c =? distance3D p t)%float = false).
Proof.
  destruct targets as [|first rest]; [done|]. intros _.
  destruct (closest_scan_spec p rest [first] 0%nat first)
    as (i & t & Hinv & Hres).
  { split_and!; [done| |intros; lia].
    intros c ->%list_elem_of_singleton. apply ltb_irrefl. }
  exists i, t. by destruct Hinv as (Hi & Hmin & Htie).
Qed.

(** C4: for every non-empty sequence of candidates, [findClosestTarget]
    returns the identifier of a candidate [t] of the sequence such that no
    candidate is strictly closer to the origin point than [t] (binary64 [<]),
    and no candidate before [t] in input order is at the same distance
    (binary64 [==]): the first of the tied candidates is returned. *)
Theorem findClosestTarget_nearest_first (p : Coordinate)
    (targets : list Coordinate) :
  targets ≠ [] →
  ∃ i t, targets !! i = Some t ∧
    findClosestTarget p targets = ID t ∧
    (∀ c, c ∈ targets → (distance3D p c <? distance3D p t)%float = false) ∧
    (∀ j c, (j < i)%nat → targets !! j = Some c →
       (distance3D p c =? distance3D p t)%float = false).
Proof. apply findClosestTarget_scan. Qed.

Lemma findClosestTarget_nearest_first_witness :
  ∃ i t, scenario_targets !! i = Some t ∧
    findClosestTarget origin scenario_targets = ID t ∧
    (∀ c, c ∈ scenario_targets →
       (distance3D origin c <? distance3D origin t)%float = false) ∧
    (∀ j c, (j < i)%nat → scenario_targets !! j = Some c →
       (distance3D origin c =? distance3D origin t)%float = false).
Proof.
  apply (findClosestTarget_nearest_first origin scenario_targets). discriminate.
Defined.

Example findClosestTarget_scenario :
  findClosestTarget origin scenario_targets = "T2".
Proof. vm_compute. reflexivity. Qed.

Example findClosestTarget_tie :
  findClosestTarget origin
    [ {| ID := "A"; X := 0; Y := 5; Zc := 0 |};
      {| ID := "B"; X := 5; Y := 0; Zc := 0 |};
      {| ID := "C"; X := 0; Y := 0; Zc := 5 |} ] = "A".
Proof. vm_compute. reflexivity. Qed.

Example findClosestTarget_empty : findClosestTarget origin [] = "".
Proof. reflexivity. Qed.

(** * Generator *)

Section Generator.
Context {R : Type} `{RandSource R}.

Lemma draw_in_unit (rng : R) (f : float) (rng' : R) :
  Float64 rng = (f, rng') →
  (0 <=? f)%float = true ∧ (f <? 1)%float = true.
Proof. intros E. pose proof (Float64_range rng) as Hr. by rewrite E in Hr. Qed.

(** The loop started at [i] with [n] iterations left makes [n] targets,
    named [T(i+1)] to [T(i+n)], each within the configured ranges. *)
Lemma gen_targets_spec (n : nat) : ∀ (i : Z) (rng : R),
  let targets := (gen_targets n i rng).1 in
  length targets = n ∧
  Forall (λ t, within_ranges t = true) targets ∧
  Forall (λ t, ∃ j, i < j ≤ i + Z.of_nat n ∧ ID t = "T" +:+ pretty j) targets ∧
  NoDup (ID <$> targets).
Proof.
  induction n as [|n IH]; intros i rng; cbn [gen_targets].
  - cbn. split_and!; [done|constructor..].
  - destruct (Float64 rng) as [fx r1] eqn:Ex.
    destruct (Float64 r1) as [fy r2] eqn:Ey.
    destruct (Float64 r2) as [fz r3] eqn:Ez.
    specialize (IH (i + 1) r3). cbv zeta in IH |- *.
    destruct (gen_targets n (i + 1) r3) as [rest r4]. cbn [fst] in IH |- *.
    destruct IH as (Hlen & Hrange & Hids & Hnd).
    destruct (draw_in_unit _ _ _ Ex) as [Hx0 Hx1].
    destruct (draw_in_unit _ _ _ Ey) as [Hy0 Hy1].
    destruct (draw_in_unit _ _ _ Ez) as [Hz0 Hz1].
    split_and!.
    + cbn. by rewrite Hlen.
    + constructor; [|done]. unfold within_ranges. cbn [X Y Zc].
      destruct (coordinate_range_xy fx Hx0 Hx1) as [-> ->].
      destruct (coordinate_range_xy fy Hy0 Hy1) as [-> ->].
      by destruct (coordinate_range_z fz Hz0 Hz1) as [-> ->].
    + constructor.
      * exists (i + 1). split; [lia|done].
      * eapply Forall_impl; [exact Hids|]. cbn beta.
        intros t (j & Hj & Ht). exists j. split; [lia|done].
    + rewrite fmap_cons. cbn [ID]. apply NoDup_cons. split; [|done].
      intros (t & Ht & Hin)%list_elem_of_fmap.
      rewrite Forall_forall in Hids. destruct (Hids t Hin) as (j & Hj & Hjt).
      rewrite Hjt in Ht. injection Ht as Ht. apply pretty_Z_inj in Ht. lia.
Qed.

Lemma generateChallenge_spec (rng : R) (now : Z) :
  let challenge := (generateChallenge rng now).1 in
  (5 ≤ length (Targets challenge) ≤ 8)%nat ∧
  NoDup (ID <$> Targets challenge) ∧
  Forall (λ t, within_ranges t = true) (Targets challenge) ∧
  Forall (λ t, ID t ≠ "") (Targets challenge) ∧
  PlayerPos challenge = origin.
Proof.
  unfold generateChallenge.
  destruct (Intn 999999 rng) as [tag r1] eqn:Etag.
  pose proof (Intn_range 4 r1 ltac:(lia)) as Hextra.
  destruct (Intn 4 r1) as [extra r2] eqn:Eextra. cbn [fst] in Hextra.
  pose proof (gen_targets_spec (Z.to_nat (5 + extra)) 0 r2) as Hspec.
  cbv zeta in Hspec |- *.
  destruct (gen_targets (Z.to_nat (5 + extra)) 0 r2) as [targets r3].
  cbn [fst Targets PlayerPos] in Hspec |- *.
  destruct Hspec as (Hlen & Hrange & Hids & Hnd).
  split_and!; [lia|lia|done|done| |done].
  eapply Forall_impl; [exact Hids|]. cbn beta. by intros t (j & _ & ->).
Qed.

End Generator.

(** C6: every generated challenge has between 5 and 8 targets, with pairwise
    distinct identifiers, and every target has x and y within ±100 and z
    within ±50. *)
Theorem generateChallenge_well_formed {R : Type} `{RandSource R}
    (rng : R) (now : Z) :
  let challenge := (generateChallenge rng now).1 in
  (5 ≤ length (Targets challenge) ≤ 8)%nat ∧
  NoDup (ID <$> Targets challenge) ∧
  Forall (λ t, within_ranges t = true) (Targets challenge).
Proof.
  pose proof (generateChallenge_spec rng now) as Hspec. cbv zeta in Hspec |- *.
  tauto.
Qed.

Example generateChallenge_counting :
  let challenge := (generateChallenge 7%nat 1500000000).1 in
  ChallengeID challenge = "TARG-7" ∧
  ID <$> Targets challenge = ["T1"; "T2"; "T3"; "T4"; "T5"] ∧
  Targets challenge !! 0%nat =
    Some {| ID := "T1"; X := 93.75; Y := -87.5; Zc := 37.5 |} ∧
  Timestamp challenge = 1.
Proof. vm_compute. done. Qed.

(** The extreme draw: [0] gives the lower ends of the ranges. *)
Example coordinate_range_lower_end :
  ((0 - 0.5) * 200)%float = (-100)%float ∧ ((0 - 0.5) * 100)%float = (-50)%float.
Proof. vm_compute. done. Qed.

(** * Sweep *)

(** C5: after [cleanupExpiredChallenges] run at clock reading [now], a record
    whose [CreatedAt] is before [now - 2 s] is absent, a record whose
    [CreatedAt] is not before that cutoff is still present and unchanged,
    and an identifier that was absent stays absent. *)
Theorem cleanupExpiredChallenges_cutoff (now : Z)
    (activeChallenges : gmap string ChallengeData) (id : string) :
  match activeChallenges !! id with
  | Some challengeData =>
      if decide (CreatedAt challengeData < now - 2 * Second)
      then cleanupExpiredChallenges now activeChallenges !! id = None
      else cleanupExpiredChallenges now activeChallenges !! id
             = Some challengeData
  | None => cleanupExpiredChallenges now activeChallenges !! id = None
  end.
Proof.
  unfold cleanupExpiredChallenges. cbv zeta.
  destruct (activeChallenges !! id) as [challengeData|] eqn:Hid.
  - destruct (decide _) as [Hold|Hyoung].
    + apply map_lookup_filter_None. right. intros d Hd. cbn.
      rewrite Hid in Hd. injection Hd as <-. tauto.
    + by apply map_lookup_filter_Some.
  - apply map_lookup_filter_None. by left.
Qed.

Lemma cleanupExpiredChallenges_subset (now : Z)
    (activeChallenges : gmap string ChallengeData) (id : string)
    (challengeData : ChallengeData) :
  cleanupExpiredChallenges now activeChallenges !! id = Some challengeData →
  activeChallenges !! id = Some challengeData.
Proof.
  unfold cleanupExpiredChallenges. by intros [? _]%map_lookup_filter_Some.
Qed.

(** A record exactly two seconds old survives; a nanosecond later it goes. *)
Example cleanup_at_the_cutoff :
  cleanupExpiredChallenges 2000000001 scenario_registry = ∅ ∧
  cleanupExpiredChallenges 2000000000 scenario_registry = scenario_registry.
Proof. split; vm_compute; reflexivity. Qed.

(** * Grading *)

(** A distance is left at its initial value when no target bears the
    identifier. *)
Lemma feedback_scan_absent (p : Coordinate) (expected chosen : string)
    (targets : list Coordinate) : ∀ correctDistance chosenDistance,
  (chosen ∉ ID <$> targets →
   (feedback_scan p expected chosen correctDistance chosenDistance targets).2
     = chosenDistance) ∧
  (expected ∉ ID <$> targets →
   (feedback_scan p expected chosen correctDistance chosenDistance targets).1
     = correctDistance).
Proof.
  induction targets as [|t rest IH]; intros cd chd; [done|].
  cbn [feedback_scan]. cbv zeta. rewrite fmap_cons.
  split; intros [Hne Hrest]%not_elem_of_cons.
  - rewrite (proj1 (IH _ _) Hrest). by rewrite decide_False.
  - rewrite (proj2 (IH _ _) Hrest). by rewrite decide_False.
Qed.

(** With distinct identifiers, a distance is that of the one target that
    bears the identifier. *)
Lemma feedback_scan_unique (p : Coordinate) (expected chosen : string)
    (targets : list Coordinate) : ∀ correctDistance chosenDistance,
  NoDup (ID <$> targets) →
  ∀ t, t ∈ targets →
  (ID t = chosen →
   (feedback_scan p expected chosen correctDistance chosenDistance targets).2
     = distance3D p t) ∧
  (ID t = expected →
   (feedback_scan p expected chosen correctDistance chosenDistance targets).1
     = distance3D p t).
Proof.
  induction targets as [|t0 rest IH]; intros cd chd Hnd t Ht.
  { by apply elem_of_nil in Ht. }
  rewrite fmap_cons in Hnd. apply NoDup_cons in Hnd as [Hfresh Hnd].
  cbn [feedback_scan]. cbv zeta.
  apply elem_of_cons in Ht as [->|Ht].
  - split; intros <-.
    + rewrite (proj1 (feedback_scan_absent _ _ _ _ _ _) Hfresh).
      by rewrite decide_True.
    + rewrite (proj2 (feedback_scan_absent _ _ _ _ _ _) Hfresh).
      by rewrite decide_True.
  - by apply IH.
Qed.

(** C3: for a stored record (its target identifiers are distinct, as the
    generator makes them) the deadline is checked first: a submission later
    than one second is answered [TimeExpired] whatever it chose.  Within the
    deadline, the expected identifier is answered [TargetAcquired]; any
    other identifier is answered [TargetMissed] with the expected and the
    chosen identifier and, for each of the two that names a target, the
    [distance3D] from the player position to that target.  Both verdicts
    remove the record. *)
Theorem answer_graded_within_deadline
    (activeChallenges : gmap string ChallengeData) (response : TargetResponse)
    (challengeData : ChallengeData) (now : Z) :
  activeChallenges !! RespChallengeID response = Some challengeData →
  NoDup (ID <$> Targets (Challenge challengeData)) →
  let elapsed := now - CreatedAt challengeData in
  let playerPos := PlayerPos (Challenge challengeData) in
  let targets := Targets (Challenge challengeData) in
  let expected := ExpectedAnswer challengeData in
  let answer := coordinatesAnswerHandler (Some response) now activeChallenges in
  (elapsed > Second → answer.1 = TimeExpired elapsed) ∧
  (elapsed ≤ Second → ClosestID response = expected →
   answer =
     (TargetAcquired elapsed (RespChallengeID response) (ClosestID response),
      delete (RespChallengeID response) activeChallenges)) ∧
  (elapsed ≤ Second → ClosestID response ≠ expected →
   ∃ correct_distance chosen_distance,
     answer = (TargetMissed expected (ClosestID response) correct_distance
                 chosen_distance (RespChallengeID response),
               delete (RespChallengeID response) activeChallenges) ∧
     (∀ t, t ∈ targets → ID t = expected →
        correct_distance = distance3D playerPos t) ∧
     (∀ t, t ∈ targets → ID t = ClosestID response →
        chosen_distance = distance3D playerPos t)).
Proof.
  intros Hlook Hnd. cbv zeta.
  unfold coordinatesAnswerHandler, answer_lookup, answer_grade, answer_remove.
  rewrite Hlook. cbv zeta. split_and!.
  - intros Hlate. by rewrite decide_True.
  - intros Hin Hright. rewrite decide_False by lia. by rewrite decide_True.
  - intros Hin Hwrong. rewrite decide_False by lia.
    rewrite decide_False by done.
    destruct (feedback_scan _ _ _ _ _ _) as [cd chd] eqn:Hscan.
    exists cd, chd. split_and!; [done| |].
    + intros t Ht Hid.
      pose proof (feedback_scan_unique (PlayerPos (Challenge challengeData))
        (ExpectedAnswer challengeData) (ClosestID response) _ 0%float 0%float
        Hnd t Ht) as [_ Hc].
      rewrite Hscan in Hc. by apply Hc.
    + intros t Ht Hid.
      pose proof (feedback_scan_unique (PlayerPos (Challenge challengeData))
        (ExpectedAnswer challengeData) (ClosestID response) _ 0%float 0%float
        Hnd t Ht) as [Hc _].
      rewrite Hscan in Hc. by apply Hc.
Qed.

(** C10: within the deadline, a chosen identifier that is neither the
    expected one nor the identifier of any target is answered [TargetMissed]
    with a chosen distance of zero, the value [chosenDistance] starts with;
    the record is removed. *)
Theorem answer_unknown_target_zero_distance
    (activeChallenges : gmap string ChallengeData) (response : TargetResponse)
    (challengeData : ChallengeData) (now : Z) :
  activeChallenges !! RespChallengeID response = Some challengeData →
  now - CreatedAt challengeData ≤ Second →
  ClosestID response ≠ ExpectedAnswer challengeData →
  ClosestID response ∉ ID <$> Targets (Challenge challengeData) →
  ∃ correct_distance,
    coordinatesAnswerHandler (Some response) now activeChallenges =
      (TargetMissed (ExpectedAnswer challengeData) (ClosestID response)
         correct_distance 0%float (RespChallengeID response),
       delete (RespChallengeID response) activeChallenges).
Proof.
  intros Hlook Hin Hwrong Habsent.
  unfold coordinatesAnswerHandler, answer_lookup, answer_grade, answer_remove.
  rewrite Hlook. cbv zeta. rewrite decide_False by lia.
  rewrite decide_False by done.
  pose proof (proj1 (feedback_scan_absent (PlayerPos (Challenge challengeData))
    (ExpectedAnswer challengeData) (ClosestID response)
    (Targets (Challenge challengeData)) 0%float 0%float) Habsent) as Hch.
  destruct (feedback_scan _ _ _ _ _ _) as [cd chd]. cbn [snd] in Hch. subst chd.
  by exists cd.
Qed.

(** C2, what the code does: a submission later than one second is answered
    [TimeExpired] whatever it chose, and the handler returns there: the
    registry is left as it was, the record still in it. *)
Theorem answer_expired_keeps_record
    (activeChallenges : gmap string ChallengeData) (response : TargetResponse)
    (challengeData : ChallengeData) (now : Z) :
  activeChallenges !! RespChallengeID response = Some challengeData →
  now - CreatedAt challengeData > Second →
  coordinatesAnswerHandler (Some response) now activeChallenges =
    (TimeExpired (now - CreatedAt challengeData), activeChallenges).
Proof.
  intros Hlook Hlate.
  unfold coordinatesAnswerHandler, answer_lookup, answer_grade.
  rewrite Hlook. cbv zeta. by rewrite decide_True.
Qed.

(** C7: a submission whose body does not decode is answered [InvalidJSON]
    at once and the registry is returned as it was, nothing inserted,
    removed or modified; and [InvalidJSON] is the answer to such a
    submission only. *)
Theorem answer_malformed_rejected (now : Z)
    (activeChallenges : gmap string ChallengeData) :
  coordinatesAnswerHandler None now activeChallenges =
    (InvalidJSON, activeChallenges) ∧
  ∀ decoded,
    (coordinatesAnswerHandler decoded now activeChallenges).1 = InvalidJSON →
    decoded = None.
Proof.
  split; [reflexivity|]. intros [response|]; [|done].
  unfold coordinatesAnswerHandler, answer_lookup, answer_grade.
  destruct (activeChallenges !! RespChallengeID response) as [d|]; [|done].
  cbv zeta. repeat case_decide; try done.
  by destruct (feedback_scan _ _ _ _ _ _).
Qed.

(** The answer handler only ever removes: what it leaves in the registry was
    there, unchanged. *)
Lemma coordinatesAnswerHandler_subset (decoded : option TargetResponse)
    (now : Z) (activeChallenges : gmap string ChallengeData) (id : string)
    (challengeData : ChallengeData) :
  (coordinatesAnswerHandler decoded now activeChallenges).2 !! id
    = Some challengeData →
  activeChallenges !! id = Some challengeData.
Proof.
  unfold coordinatesAnswerHandler, answer_lookup, answer_remove.
  destruct decoded as [response|]; [|done].
  destruct (activeChallenges !! RespChallengeID response) as [d|]; [|done].
  destruct (answer_grade response d now) as [out [|]]; [|done].
  cbn [snd]. by intros [_ ?]%lookup_delete_Some.
Qed.

(** ** The scenario of the specification, graded *)

Lemma scenario_lookup (chosen : string) :
  scenario_registry !! RespChallengeID (submit chosen) = Some scenario_record.
Proof. vm_compute. reflexivity. Qed.

Lemma scenario_ids_distinct :
  NoDup (ID <$> Targets (Challenge scenario_record)).
Proof.
  cbn. apply NoDup_cons. split; [|apply NoDup_singleton].
  by intros ?%list_elem_of_singleton.
Qed.

Lemma answer_graded_within_deadline_witness :
  coordinatesAnswerHandler (Some (submit "T2")) 500000000 scenario_registry =
    (TargetAcquired 500000000 "TARG-42" "T2", ∅) ∧
  ∃ correct_distance chosen_distance,
    coordinatesAnswerHandler (Some (submit "T1")) 500000000 scenario_registry =
      (TargetMissed "T2" "T1" correct_distance chosen_distance "TARG-42", ∅) ∧
    correct_distance = 3%float ∧ chosen_distance = 10%float.
Proof.
  split.
  - destruct (answer_graded_within_deadline scenario_registry (submit "T2")
      scenario_record 500000000 (scenario_lookup "T2") scenario_ids_distinct)
      as (_ & Hright & _).
    rewrite Hright; [reflexivity|vm_compute; discriminate|reflexivity].
  - destruct (answer_graded_within_deadline scenario_registry (submit "T1")
      scenario_record 500000000 (scenario_lookup "T1") scenario_ids_distinct)
      as (_ & _ & Hwrong).
    destruct Hwrong as (cd & chd & Hanswer & Hcd & Hchd);
      [vm_compute; discriminate|vm_compute; discriminate|].
    exists cd, chd. split; [exact Hanswer|]. split.
    + rewrite (Hcd {| ID := "T2"; X := 3; Y := 0; Zc := 0 |});
        [vm_compute; reflexivity|repeat constructor|reflexivity].
    + rewrite (Hchd {| ID := "T1"; X := 10; Y := 0; Zc := 0 |});
        [vm_compute; reflexivity|repeat constructor|reflexivity].
Defined.

Lemma answer_unknown_target_zero_distance_witness :
  ∃ correct_distance,
    coordinatesAnswerHandler (Some (submit "T9")) 500000000 scenario_registry =
      (TargetMissed (ExpectedAnswer scenario_record) "T9"
         correct_distance 0%float "TARG-42",
       delete "TARG-42" scenario_registry).
Proof.
  apply (answer_unknown_target_zero_distance scenario_registry (submit "T9")
           scenario_record 500000000 (scenario_lookup "T9")).
  - vm_compute. discriminate.
  - vm_compute. discriminate.
  - cbn. intros [?|[?|[]%elem_of_nil]%elem_of_cons]%elem_of_cons; discriminate.
Defined.

Lemma answer_expired_keeps_record_witness :
  coordinatesAnswerHandler (Some (submit "T2")) 1000000001 scenario_registry =
    (TimeExpired (1000000001 - CreatedAt scenario_record), scenario_registry).
Proof.
  apply (answer_expired_keeps_record scenario_registry (submit "T2")
           scenario_record 1000000001 (scenario_lookup "T2")).
  vm_compute. reflexivity.
Defined.

(** The late submission of the right answer, twice: the second one finds the
    record again and is answered [TimeExpired] too, not [NotFound]. *)
Example late_submission_twice :
  let '(first, activeChallenges) :=
    coordinatesAnswerHandler (Some (submit "T2")) 1000000001 scenario_registry in
  let '(second, activeChallenges') :=
    coordinatesAnswerHandler (Some (submit "T2")) 1000000002 activeChallenges in
  first = TimeExpired 1000000001 ∧ second = TimeExpired 1000000002 ∧
  activeChallenges' = scenario_registry.
Proof. vm_compute. done. Qed.

(** The graded submission, twice: the second one is answered [NotFound]. *)
Example graded_submission_twice :
  let '(first, activeChallenges) :=
    coordinatesAnswerHandler (Some (submit "T1")) 500000000 scenario_registry in
  let '(second, _) :=
    coordinatesAnswerHandler (Some (submit "T2")) 500000001 activeChallenges in
  first = TargetMissed "T2" "T1" 3 10 "TARG-42" ∧ second = NotFound.
Proof. vm_compute. done. Qed.

(** Exactly one second is within the deadline. *)
Example answer_at_the_deadline :
  (coordinatesAnswerHandler (Some (submit "T2")) 1000000000 scenario_registry).1
    = TargetAcquired 1000000000 "TARG-42" "T2".
Proof. vm_compute. reflexivity. Qed.

(** * Issuing *)

Section Issuing.
Context {R : Type} `{RandSource R}.

(** The record [coordinatesChallengeHandler] stores: its expected answer is
    the identifier of one of its targets, and no other entry is touched. *)
Lemma coordinatesChallengeHandler_spec (rng : R) (now_gen now_store : Z)
    (activeChallenges : gmap string ChallengeData) :
  let '(challenge, activeChallenges', _) :=
    coordinatesChallengeHandler rng now_gen now_store activeChallenges in
  ∃ challengeData,
    activeChallenges' !! ChallengeID challenge = Some challengeData ∧
    Challenge challengeData = challenge ∧
    CreatedAt challengeData = now_store ∧
    ExpectedAnswer challengeData ≠ "" ∧
    ExpectedAnswer challengeData ∈ ID <$> Targets challenge ∧
    NoDup (ID <$> Targets challenge) ∧
    ∀ id, id ≠ ChallengeID challenge →
      activeChallenges' !! id = activeChallenges !! id.
Proof.
  unfold coordinatesChallengeHandler.
  pose proof (generateChallenge_spec rng now_gen) as Hspec. cbv zeta in Hspec.
  destruct (generateChallenge rng now_gen) as [challenge rng'].
  cbn [fst] in Hspec. destruct Hspec as (Hlen & Hnd & _ & Hnames & Hpos).
  assert (Targets challenge ≠ []) as Hne.
  { intros Hnil. rewrite Hnil in Hlen. cbn in Hlen. lia. }
  destruct (findClosestTarget_scan (PlayerPos challenge) (Targets challenge) Hne)
    as (i & t & Hi & Hres & _).
  assert (t ∈ Targets challenge) as Ht by (by eapply list_elem_of_lookup_2).
  eexists. split_and!; [apply lookup_insert_eq|done|done| | |done|].
  - cbn [ExpectedAnswer]. rewrite Hres.
    rewrite Forall_forall in Hnames. by apply Hnames.
  - cbn [ExpectedAnswer]. rewrite Hres. by apply list_elem_of_fmap_2.
  - intros id Hid. by apply lookup_insert_ne.
Qed.

End Issuing.

(** C9: the record the challenge-issuing path inserts has an
    [ExpectedAnswer] that is not the empty string and is the identifier of
    one of its own challenge's targets; and no operation on the registry
    changes a stored record: what the issuing path leaves under another
    identifier, and whatever the answer path or the sweep leave, is a record
    that was there, field for field. *)
Theorem expected_answer_invariant {R : Type} `{RandSource R} (rng : R)
    (now_gen now_store now : Z) (decoded : option TargetResponse)
    (activeChallenges : gmap string ChallengeData) :
  (let '(challenge, activeChallenges', _) :=
     coordinatesChallengeHandler rng now_gen now_store activeChallenges in
   ∃ challengeData,
     activeChallenges' !! ChallengeID challenge = Some challengeData ∧
     Challenge challengeData = challenge ∧
     ExpectedAnswer challengeData ≠ "" ∧
     ExpectedAnswer challengeData ∈ ID <$> Targets challenge ∧
     ∀ id other, id ≠ ChallengeID challenge →
       activeChallenges' !! id = Some other →
       activeChallenges !! id = Some other) ∧
  (∀ id challengeData,
     (coordinatesAnswerHandler decoded now activeChallenges).2 !! id
       = Some challengeData →
     activeChallenges !! id = Some challengeData) ∧
  (∀ id challengeData,
     cleanupExpiredChallenges now activeChallenges !! id = Some challengeData →
     activeChallenges !! id = Some challengeData).
Proof.
  split_and!.
  - pose proof (coordinatesChallengeHandler_spec rng now_gen now_store
      activeChallenges) as Hspec.
    destruct (coordinatesChallengeHandler rng now_gen now_store activeChallenges)
      as [[challenge activeChallenges'] rng'].
    destruct Hspec as (d & Hd & Hch & _ & Hne & Hin & _ & Hother).
    exists d. split_and!; [done..|].
    intros id other Hid Hl. by rewrite <- (Hother id Hid).
  - apply coordinatesAnswerHandler_subset.
  - apply cleanupExpiredChallenges_subset.
Qed.

Example coordinatesChallengeHandler_counting :
  let '(challenge, activeChallenges, _) :=
    coordinatesChallengeHandler 7%nat 1500000000 1500000123 ∅ in
  ExpectedAnswer <$> activeChallenges !! "TARG-7" = Some "T4" ∧
  CreatedAt <$> activeChallenges !! "TARG-7" = Some 1500000123 ∧
  size activeChallenges = 1%nat.
Proof. vm_compute. done. Qed.

(** * Handlers in flight *)

Lemma step_run (w : World) (i : nat) (t : Thread) :
  pool w !! i = Some t →
  step (Run i) w =
    {| registry := (run_thread t (clock w) (registry w)).2;
       clock := clock w;
       pool := <[i := (run_thread t (clock w) (registry w)).1]> (pool w) |}.
Proof.
  intros Hi. cbn [step]. rewrite Hi.
  by destruct (run_thread t (clock w) (registry w)).
Qed.

Lemma step_run_thread (w : World) (i : nat) (t : Thread) :
  pool w !! i = Some t →
  pool (step (Run i) w) !! i = Some (run_thread t (clock w) (registry w)).1 ∧
  registry (step (Run i) w) = (run_thread t (clock w) (registry w)).2 ∧
  clock (step (Run i) w) = clock w.
Proof.
  intros Hi. rewrite (step_run w i t Hi). cbn [pool registry clock].
  split; [|done]. apply list_lookup_insert_eq. by eapply lookup_lt_Some.
Qed.

(** X21: a submission that runs its three steps with nothing in between is
    [coordinatesAnswerHandler]: the registry it leaves and the answer it
    finishes with are those of the handler at the clock reading of the
    run. *)
Lemma answer_thread_sequential (w : World) (i : nat) (response : TargetResponse) :
  pool w !! i = Some (Answering response) →
  let w' := exec [Run i; Run i; Run i] w in
  registry w' =
    (coordinatesAnswerHandler (Some response) (clock w) (registry w)).2 ∧
  pool w' !! i =
    Some (Finished (Some
      (coordinatesAnswerHandler (Some response) (clock w) (registry w)).1)).
Proof.
  intros Hi. cbv zeta. unfold exec. cbn [fold_left].
  destruct (step_run_thread w i _ Hi) as (H1 & R1 & C1).
  set (w1 := step (Run i) w) in *.
  unfold coordinatesAnswerHandler. cbn [run_thread] in H1, R1.
  destruct (answer_lookup response (registry w)) as [d|] eqn:Hlook.
  - cbn [fst snd] in H1, R1.
    destruct (step_run_thread w1 i _ H1) as (H2 & R2 & C2).
    set (w2 := step (Run i) w1) in *.
    cbn [run_thread] in H2, R2. rewrite C1 in H2, R2.
    destruct (answer_grade response d (clock w)) as [out [|]].
    + cbn [fst snd] in H2, R2.
      destruct (step_run_thread w2 i _ H2) as (H3 & R3 & _).
      cbn [run_thread fst snd] in H3, R3. by rewrite R3, R2, R1.
    + cbn [fst snd] in H2, R2.
      destruct (step_run_thread w2 i _ H2) as (H3 & R3 & _).
      cbn [run_thread fst snd] in H3, R3. by rewrite R3, R2, R1.
  - cbn [fst snd] in H1, R1.
    destruct (step_run_thread w1 i _ H1) as (H2 & R2 & _).
    set (w2 := step (Run i) w1) in *. cbn [run_thread fst snd] in H2, R2.
    destruct (step_run_thread w2 i _ H2) as (H3 & R3 & _).
    cbn [run_thread fst snd] in H3, R3. by rewrite R3, R2, R1.
Qed.

Lemma run_thread_not_issuing (t : Thread) (now : Z)
    (activeChallenges : gmap string ChallengeData) challenge expectedAnswer :
  (run_thread t now activeChallenges).1 ≠ Issuing challenge expectedAnswer.
Proof.
  destruct t as [c e|r|r d|r out| |out]; cbn [run_thread]; try done.
  - unfold answer_lookup. by destruct (activeChallenges !! _).
  - by destruct (answer_grade r d now) as [out [|]].
Qed.

Lemma run_thread_absent (t : Thread) (now : Z)
    (activeChallenges : gmap string ChallengeData) (id : string) :
  activeChallenges !! id = None →
  (∀ challenge expectedAnswer,
     t = Issuing challenge expectedAnswer → ChallengeID challenge ≠ id) →
  (run_thread t now activeChallenges).2 !! id = None.
Proof.
  intros Habs Hiss.
  destruct t as [c e|r|r d|r out| |out]; cbn [run_thread]; try done.
  - cbn [snd]. rewrite lookup_insert_ne; [done|]. by eapply Hiss.
  - unfold answer_lookup. by destruct (activeChallenges !! RespChallengeID r).
  - by destruct (answer_grade r d now) as [out [|]].
  - cbn [snd]. unfold answer_remove. apply lookup_delete_None. by right.
  - cbn [snd]. unfold cleanupExpiredChallenges. apply map_lookup_filter_None. by left.
Qed.

Lemma step_no_issuing (ev : Event) (w : World) (id : string) :
  no_issuing id (pool w) → no_issuing id (pool (step ev w)).
Proof.
  intros Hiss. destruct ev as [i|d]; cbn [step]; [|done].
  destruct (pool w !! i) as [t|] eqn:Hi; [|done].
  pose proof (run_thread_not_issuing t (clock w) (registry w)) as Hnot.
  destruct (run_thread t (clock w) (registry w)) as [t' activeChallenges].
  cbn [pool fst] in *.
  intros k c e Hk. destruct (decide (k = i)) as [->|Hne].
  - rewrite list_lookup_insert_eq in Hk by (by eapply lookup_lt_Some).
    injection Hk as ->. by destruct (Hnot c e).
  - rewrite list_lookup_insert_ne in Hk by done. by eapply Hiss.
Qed.

Lemma step_absent (ev : Event) (w : World) (id : string) :
  registry w !! id = None → no_issuing id (pool w) →
  registry (step ev w) !! id = None.
Proof.
  intros Habs Hiss. destruct ev as [i|d]; cbn [step]; [|done].
  destruct (pool w !! i) as [t|] eqn:Hi; [|done].
  pose proof (run_thread_absent t (clock w) (registry w) id Habs) as Hreg.
  destruct (run_thread t (clock w) (registry w)) as [t' activeChallenges].
  cbn [registry snd] in *. apply Hreg. intros c e ->. by eapply Hiss.
Qed.

Lemma exec_absent (schedule : list Event) : ∀ (w : World) (id : string),
  registry w !! id = None → no_issuing id (pool w) →
  registry (exec schedule w) !! id = None ∧
  no_issuing id (pool (exec schedule w)).
Proof.
  induction schedule as [|ev schedule IH]; intros w id Habs Hiss; [done|].
  cbn [exec fold_left]. apply IH; [by apply step_absent|by apply step_no_issuing].
Qed.

Lemma step_lookup_absent (w : World) (j : nat) (response : TargetResponse) :
  pool w !! j = Some (Answering response) →
  registry w !! RespChallengeID response = None →
  pool (step (Run j) w) !! j = Some (Finished (Some NotFound)).
Proof.
  intros Hj Habs. cbn [step]. rewrite Hj. cbn [run_thread]. unfold answer_lookup.
  rewrite Habs. cbn [pool]. apply list_lookup_insert_eq. by eapply lookup_lt_Some.
Qed.

(** C1 as stated fails: the one record of the scenario, two submissions for
    it half a second later, and the schedule in which both look the record
    up (each under the read lock) before either removes it.  Both receive
    the record and both are graded [TargetAcquired]. *)
Lemma consume_race_two_observers :
  let w := exec race_schedule race_world in
  size (registry race_world) = 1%nat ∧
  observers w = 2%nat ∧
  pool w = [Finished (Some (TargetAcquired 500000000 "TARG-42" "T2"));
            Finished (Some (TargetAcquired 500000000 "TARG-42" "T2"))].
Proof. vm_compute. done. Qed.

(** The same with a sweep: the submission has looked the record up when the
    sweep removes it, and is answered on it all the same. *)
Example sweep_race_two_observers :
  let w := exec [Run 0; Run 1; Run 0]%nat sweep_race_world in
  registry (step (Run 1) (step (Run 0) sweep_race_world)) = ∅ ∧
  pool w = [Finished (Some (TimeExpired 2000000001)); Finished None].
Proof. vm_compute. done. Qed.

(** C1 (amended): the lookup and the removal are two critical sections.
    The lookup, atomic on its own, hands the record to the caller and leaves
    it in the registry, so a caller whose lookup comes before the removal by
    another receives the record too.  The removal, atomic on its own, is
    final: whatever runs after it, a submission for the same identifier
    that looks up later observes absence and is answered [NotFound], as long
    as no challenge with that identifier is being issued. *)
Theorem consume_two_critical_sections :
  (∀ (w : World) (i : nat) (response : TargetResponse),
     pool w !! i = Some (Answering response) →
     registry (step (Run i) w) = registry w ∧
     pool (step (Run i) w) !! i =
       Some (match registry w !! RespChallengeID response with
             | Some challengeData => Grading response challengeData
             | None => Finished (Some NotFound)
             end)) ∧
  (∀ (w : World) (i : nat) (response : TargetResponse) (out : Response),
     pool w !! i = Some (Removing response out) →
     no_issuing (RespChallengeID response) (pool w) →
     ∀ (schedule : list Event) (j : nat) (response' : TargetResponse),
       RespChallengeID response' = RespChallengeID response →
       let w' := exec schedule (step (Run i) w) in
       pool w' !! j = Some (Answering response') →
       pool (step (Run j) w') !! j = Some (Finished (Some NotFound))).
Proof.
  split.
  - intros w i response Hi. cbn [step]. rewrite Hi. cbn [run_thread].
    unfold answer_lookup.
    destruct (registry w !! RespChallengeID response) as [d|];
      cbn [registry pool]; (split; [done|]);
      apply list_lookup_insert_eq; by eapply lookup_lt_Some.
  - intros w i response out Hi Hiss schedule j response' Hid. cbv zeta. intros Hj.
    destruct (exec_absent schedule (step (Run i) w) (RespChallengeID response))
      as [Habs _].
    + cbn [step]. rewrite Hi. cbn [run_thread registry]. unfold answer_remove.
      apply lookup_delete_eq.
    + by apply step_no_issuing.
    + apply (step_lookup_absent _ j response' Hj). by rewrite Hid.
Qed.

(** One after the other: the first submission runs its three steps, then the
    second looks up and observes absence. *)
Example sequential_submissions_one_graded :
  let w := exec [Run 0; Run 0; Run 0; Run 1]%nat race_world in
  observers w = 1%nat ∧
  pool w = [Finished (Some (TargetAcquired 500000000 "TARG-42" "T2"));
            Finished (Some NotFound)].
Proof. vm_compute. done. Qed.

(** * Further properties

    The rest of [main.go]: what [statusHandler] reports, the debug log of
    [coordinatesChallengeHandler], the sweeper loop of [main], and what the
    functions above do at their edges and in sequence. *)

(** ** Status and log *)

(** What [statusHandler] reports: the size of the registry read under the
    read lock, beside four fixed texts. *)
Record Status := mkStatus {
  server_status : string;
  active_challenges : nat;
  challenge_timeout : string;
  cleanup_interval : string;
  player_position : string
}.

Definition statusHandler (activeChallenges : gmap string ChallengeData)
    : Status :=
  let count := size activeChallenges in
  {| server_status := "OPERATIONAL";
     active_challenges := count;
     challenge_timeout := "1 second";
     cleanup_interval := "2 seconds";
     player_position := "(0, 0, 0)" |}.

(** The debug log of [coordinatesChallengeHandler]: one line per target, in
    order, with its distance from the player and whether it bears the
    CLOSEST marker. *)
Definition challenge_log (challenge : TargetChallenge)
    (expectedAnswer : string) : list (Coordinate * float * string) :=
  (λ target,
     let dist := distance3D (PlayerPos challenge) target in
     let marker :=
       if decide (ID target = expectedAnswer) then " ⭐ CLOSEST" else "" in
     (target, dist, marker)) <$> Targets challenge.

(** The sweeper goroutine of [main]: one [cleanupExpiredChallenges] per tick
    of the two-second ticker; [readings] are the clock readings of the
    calls, in order. *)
Definition sweeper_loop (readings : list Z)
    (activeChallenges : gmap string ChallengeData) : gmap string ChallengeData :=
  fold_left (λ activeChallenges now,
               cleanupExpiredChallenges now activeChallenges)
    readings activeChallenges.

(** ** Numbers and NaN *)

Lemma fin_compare_antisym s1 m1 e1 s2 m2 e2 :
  fin_compare s2 m2 e2 s1 m1 e1 = CompOpp (fin_compare s1 m1 e1 s2 m2 e2).
Proof.
  unfold fin_compare. destruct s1, s2; try done.
  all: rewrite (Z.compare_antisym e1 e2),
    (Z.compare_antisym (Z.pos m1) (Z.pos m2));
    destruct (e1 ?= e2); try done; by destruct (Z.pos m1 ?= Z.pos m2).
Qed.

Lemma SFeqb_self_nan (x : spec_float) : SFeqb x x = false → x = S754_nan.
Proof.
  intros Hx. destruct x as [s|s| |s m e]; try done.
  all: by rewrite SFeqb_refl in Hx.
Qed.

Lemma SFltb_number (x y : spec_float) :
  SFltb x y = true → x ≠ S754_nan ∧ y ≠ S754_nan.
Proof. by destruct x as [[]|[]| |[] ? ?], y as [[]|[]| |[] ? ?]. Qed.

Lemma SFleb_total (x y : spec_float) :
  x ≠ S754_nan → y ≠ S754_nan → SFltb x y = false → SFleb y x = true.
Proof.
  destruct x as [sx|sx| |sx mx ex], y as [sy|sy| |sy my ey]; try done;
    intros _ _; unfold SFltb, SFleb; rewrite ?SFcompare_finite;
    try (cbn [SFcompare];
         repeat match goal with s : bool |- _ => destruct s end; done).
  rewrite (fin_compare_antisym sx mx ex sy my ey).
  by destruct (fin_compare sx mx ex sy my ey).
Qed.

Lemma SFleb_zero_signed (x : spec_float) :
  sf_signed false x → SFleb (S754_zero false) x = true.
Proof. destruct x as [s|s| |s m e]; cbn [sf_signed]; try done; by intros ->. Qed.

Lemma SFleb_between_finite (x : spec_float) s1 m1 e1 s2 m2 e2 :
  SFleb (S754_finite s1 m1 e1) x = true →
  SFleb x (S754_finite s2 m2 e2) = true →
  sf_finite x = true.
Proof.
  destruct x as [s|s| |s m e]; try done.
  - destruct s; [by destruct s1|]. intros _. by destruct s2.
Qed.

Lemma eqb_self_number (x : float) :
  (x =? x)%float = true ↔ Prim2SF x ≠ S754_nan.
Proof.
  rewrite FloatAxioms.eqb_spec. split.
  - intros Hx Hnan. by rewrite Hnan in Hx.
  - apply SFeqb_refl.
Qed.

Lemma ltb_number (x y : float) :
  (x <? y)%float = true → (x =? x)%float = true ∧ (y =? y)%float = true.
Proof.
  rewrite FloatAxioms.ltb_spec, !eqb_self_number. apply SFltb_number.
Qed.

Lemma leb_total (x y : float) :
  (x =? x)%float = true → (y =? y)%float = true →
  (x <? y)%float = false → (y <=? x)%float = true.
Proof.
  rewrite !eqb_self_number, FloatAxioms.ltb_spec, FloatAxioms.leb_spec.
  apply SFleb_total.
Qed.

Lemma ltb_nan_r (x y : float) : is_nan y = true → (x <? y)%float = false.
Proof.
  unfold is_nan. rewrite FloatAxioms.eqb_spec, FloatAxioms.ltb_spec.
  intros Hy%negb_true_iff%SFeqb_self_nan. rewrite Hy.
  by destruct (Prim2SF x) as [[]|[]| |[] ? ?].
Qed.

Lemma within_bounds_finite (lo hi x : float) s1 m1 e1 s2 m2 e2 :
  Prim2SF lo = S754_finite s1 m1 e1 → Prim2SF hi = S754_finite s2 m2 e2 →
  (lo <=? x)%float = true → (x <=? hi)%float = true → is_finite x = true.
Proof.
  intros Hlo Hhi. rewrite !FloatAxioms.leb_spec, is_finite_spec, Hlo, Hhi.
  apply SFleb_between_finite.
Qed.

Lemma within_ranges_finite (t : Coordinate) :
  within_ranges t = true → finite_point t = true.
Proof.
  unfold within_ranges, finite_point.
  intros [[[[[Hx1 Hx2]%andb_prop Hy1]%andb_prop Hy2]%andb_prop Hz1]%andb_prop Hz2]%andb_prop.
  rewrite (within_bounds_finite (-100) 100 (X t) true 7036874417766400 (-46)
             false 7036874417766400 (-46)); try done; try (vm_compute; reflexivity).
  rewrite (within_bounds_finite (-100) 100 (Y t) true 7036874417766400 (-46)
             false 7036874417766400 (-46)); try done; try (vm_compute; reflexivity).
  rewrite (within_bounds_finite (-50) 50 (Zc t) true 7036874417766400 (-47)
             false 7036874417766400 (-47)); try done; try (vm_compute; reflexivity).
Qed.

(** ** Geometry *)

(** X1: [distance3D] gives the same binary64 value both ways round, for
    all points, NaN and infinite coordinates included. *)
Theorem distance3D_same_value (a b : Coordinate) :
  distance3D a b = distance3D b a.
Proof. apply distance3D_sym. Qed.

(** X2: between points with finite coordinates the distance is a number,
    not NaN, and it is not negative (it can be [+∞], when a square
    overflows). *)
Theorem distance3D_nonnegative (a b : Coordinate) :
  finite_point a = true → finite_point b = true →
  (0 <=? distance3D a b)%float = true ∧ is_nan (distance3D a b) = false.
Proof.
  intros Ha Hb. split.
  - revert Ha Hb. unfold finite_point.
    intros [[??]%andb_prop ?]%andb_prop [[??]%andb_prop ?]%andb_prop.
    rewrite FloatAxioms.leb_spec.
    replace (Prim2SF 0) with (S754_zero false) by (vm_compute; reflexivity).
    apply SFleb_zero_signed. unfold distance3D. cbv zeta.
    by apply norm_of_finite_signed.
  - unfold is_nan. by rewrite distance3D_number.
Qed.

Lemma distance3D_nonnegative_witness :
  (0 <=? distance3D origin {| ID := "T1"; X := 10; Y := 0; Zc := 0 |})%float
    = true ∧
  is_nan (distance3D origin {| ID := "T1"; X := 10; Y := 0; Zc := 0 |}) = false.
Proof.
  apply (distance3D_nonnegative origin {| ID := "T1"; X := 10; Y := 0; Zc := 0 |});
    vm_compute; reflexivity.
Defined.

(** ** The nearest target and NaN *)

Lemma closest_scan_nan (p : Coordinate) (closestID : string)
    (minDistance : float) (targets : list Coordinate) :
  is_nan minDistance = true →
  closest_scan p closestID minDistance targets = closestID.
Proof.
  intros Hnan. induction targets as [|t rest IH]; [done|].
  cbn [closest_scan]. cbv zeta. by rewrite (ltb_nan_r _ _ Hnan).
Qed.

(** X3: a first candidate at NaN distance wins: nothing compares smaller
    than NaN, so [findClosestTarget] returns its identifier whatever the
    other candidates are. *)
Theorem findClosestTarget_nan_first (p first : Coordinate)
    (rest : list Coordinate) :
  is_nan (distance3D p first) = true →
  findClosestTarget p (first :: rest) = ID first.
Proof. intros Hnan. cbn [findClosestTarget]. by apply closest_scan_nan. Qed.

Lemma findClosestTarget_nan_first_witness :
  findClosestTarget origin
    [ {| ID := "far"; X := nan; Y := 0; Zc := 0 |};
      {| ID := "near"; X := 1; Y := 0; Zc := 0 |} ] = "far".
Proof.
  apply (findClosestTarget_nan_first origin
           {| ID := "far"; X := nan; Y := 0; Zc := 0 |}).
  vm_compute. reflexivity.
Defined.

(** From a best candidate at a numeric distance the scan ends on a candidate
    at a numeric distance that none compares smaller than. *)
Lemma closest_scan_number (p : Coordinate) (rest : list Coordinate) :
  ∀ seen best,
  best ∈ seen →
  (distance3D p best =? distance3D p best)%float = true →
  (∀ c, c ∈ seen → (distance3D p c <? distance3D p best)%float = false) →
  ∃ best', best' ∈ seen ++ rest ∧
    (distance3D p best' =? distance3D p best')%float = true ∧
    (∀ c, c ∈ seen ++ rest →
       (distance3D p c <? distance3D p best')%float = false) ∧
    closest_scan p (ID best) (distance3D p best) rest = ID best'.
Proof.
  induction rest as [|t rest IH]; intros seen best Hin Hnum Hmin.
  - exists best. by rewrite app_nil_r.
  - cbn [closest_scan]. cbv zeta.
    replace (seen ++ t :: rest) with ((seen ++ [t]) ++ rest)
      by (by rewrite <- app_assoc).
    destruct (distance3D p t <? distance3D p best)%float eqn:Hlt.
    + apply (IH (seen ++ [t]) t).
      * apply elem_of_app. right. by apply list_elem_of_singleton.
      * by destruct (ltb_number _ _ Hlt).
      * intros c [Hc| ->%list_elem_of_singleton]%elem_of_app;
          [|apply ltb_irrefl].
        destruct (distance3D p c <? distance3D p t)%float eqn:Hct; [|done].
        pose proof (Hmin c Hc) as Hc'.
        by rewrite (ltb_trans _ _ _ Hct Hlt) in Hc'.
    + apply (IH (seen ++ [t]) best); [|done|].
      * apply elem_of_app. by left.
      * intros c [Hc| ->%list_elem_of_singleton]%elem_of_app;
          [by apply Hmin|done].
Qed.

Lemma findClosestTarget_least (p first : Coordinate) (rest : list Coordinate) :
  (distance3D p first =? distance3D p first)%float = true →
  ∃ t, t ∈ first :: rest ∧
    findClosestTarget p (first :: rest) = ID t ∧
    (distance3D p t =? distance3D p t)%float = true ∧
    (∀ c, c ∈ first :: rest →
       (distance3D p c =? distance3D p c)%float = true →
       (distance3D p t <=? distance3D p c)%float = true).
Proof.
  intros Hnum.
  destruct (closest_scan_number p rest [first] first) as (t & Ht & Htn & Hmin & Hres).
  - by apply list_elem_of_singleton.
  - done.
  - intros c ->%list_elem_of_singleton. apply ltb_irrefl.
  - exists t. split_and!; [done|done|done|].
    intros c Hc Hcn. apply leb_total; [done|done|]. by apply Hmin.
Qed.

(** X4: when every candidate is at a numeric (not NaN) distance, the
    candidate [findClosestTarget] returns is at most as far as every
    candidate, in the sense of binary64 [<=]. *)
Theorem findClosestTarget_minimum (p : Coordinate) (targets : list Coordinate) :
  targets ≠ [] →
  Forall (λ c, is_nan (distance3D p c) = false) targets →
  ∃ t, t ∈ targets ∧ findClosestTarget p targets = ID t ∧
    Forall (λ c, (distance3D p t <=? distance3D p c)%float = true) targets.
Proof.
  destruct targets as [|first rest]; [done|]. intros _ Hall.
  assert (∀ c, c ∈ first :: rest →
            (distance3D p c =? distance3D p c)%float = true) as Hnum.
  { intros c Hc. rewrite Forall_forall in Hall. specialize (Hall c Hc).
    unfold is_nan in Hall. by apply negb_false_iff in Hall. }
  destruct (findClosestTarget_least p first rest) as (t & Ht & Hres & _ & Hmin).
  { apply Hnum. by left. }
  exists t. split_and!; [done|done|].
  apply Forall_forall. intros c Hc. apply Hmin; [done|by apply Hnum].
Qed.

Lemma findClosestTarget_minimum_witness :
  ∃ t, t ∈ scenario_targets ∧ findClosestTarget origin scenario_targets = ID t ∧
    Forall (λ c, (distance3D origin t <=? distance3D origin c)%float = true)
      scenario_targets.
Proof.
  apply (findClosestTarget_minimum origin scenario_targets); [discriminate|].
  repeat constructor.
Defined.

(** ** Generated challenges *)

Section GeneratedChallenges.
Context {R : Type} `{RandSource R}.

Lemma gen_targets_names (n : nat) : ∀ (i : Z) (rng : R) (k : nat) t,
  (gen_targets n i rng).1 !! k = Some t →
  ID t = "T" +:+ pretty (i + Z.of_nat k + 1).
Proof.
  induction n as [|n IH]; intros i rng k t; cbn [gen_targets]; [done|].
  destruct (Float64 rng) as [fx r1]. destruct (Float64 r1) as [fy r2].
  destruct (Float64 r2) as [fz r3].
  specialize (IH (i + 1) r3).
  destruct (gen_targets n (i + 1) r3) as [rest r4]. cbn [fst] in IH |- *.
  destruct k as [|k]; cbn.
  - intros [= <-]. cbn [ID]. do 2 f_equal. lia.
  - intros Hk. rewrite (IH k t Hk). do 2 f_equal. lia.
Qed.

(** X5: a generated challenge is named [TARG-] followed by the decimal
    digits of a draw below 999999, places the player at the origin, stamps
    the whole seconds of the clock, and names its targets [T1], [T2], ... in
    order. *)
Theorem generateChallenge_shape (rng : R) (now : Z) :
  let challenge := (generateChallenge rng now).1 in
  (∃ tag, 0 ≤ tag < 999999 ∧ ChallengeID challenge = "TARG-" +:+ pretty tag) ∧
  PlayerPos challenge = origin ∧
  Timestamp challenge = now `div` Second ∧
  ∀ (k : nat) t, Targets challenge !! k = Some t →
    ID t = "T" +:+ pretty (Z.of_nat k + 1).
Proof.
  unfold generateChallenge.
  pose proof (Intn_range 999999 rng ltac:(lia)) as Htag.
  destruct (Intn 999999 rng) as [tag r1]. cbn [fst] in Htag.
  destruct (Intn 4 r1) as [extra r2].
  pose proof (gen_targets_names (Z.to_nat (5 + extra)) 0 r2) as Hnames.
  destruct (gen_targets (Z.to_nat (5 + extra)) 0 r2) as [targets r3].
  cbn [fst] in *. cbv zeta. cbn [ChallengeID PlayerPos Timestamp Targets].
  split_and!; [by exists tag|done|done|].
  intros k t Hk. by rewrite (Hnames k t Hk).
Qed.

(** X6: the expected answer stored with an issued challenge names one of
    its targets, and that target is at most as far from the player as every
    target of the challenge (binary64 [<=]): generated coordinates are
    finite, so no distance is NaN and the scan finds a true minimum. *)
Theorem issued_expected_least (rng : R) (now_gen now_store : Z)
    (activeChallenges : gmap string ChallengeData) :
  let '(challenge, activeChallenges', _) :=
    coordinatesChallengeHandler rng now_gen now_store activeChallenges in
  ∃ challengeData t,
    activeChallenges' !! ChallengeID challenge = Some challengeData ∧
    t ∈ Targets challenge ∧
    ExpectedAnswer challengeData = ID t ∧
    Forall (λ c, (distance3D (PlayerPos challenge) t <=?
                  distance3D (PlayerPos challenge) c)%float = true)
      (Targets challenge).
Proof.
  unfold coordinatesChallengeHandler.
  pose proof (generateChallenge_spec rng now_gen) as Hspec. cbv zeta in Hspec.
  destruct (generateChallenge rng now_gen) as [challenge rng'].
  cbn [fst] in Hspec. destruct Hspec as (Hlen & _ & Hrange & _ & Hpos).
  assert (∀ c, c ∈ Targets challenge →
    (distance3D (PlayerPos challenge) c =?
     distance3D (PlayerPos challenge) c)%float = true) as Hnum.
  { intros c Hc. rewrite Forall_forall in Hrange.
    apply distance3D_number; [by rewrite Hpos|].
    by apply within_ranges_finite, Hrange. }
  destruct (Targets challenge) as [|first rest] eqn:Htargets.
  { cbn in Hlen. lia. }
  destruct (findClosestTarget_least (PlayerPos challenge) first rest)
    as (t & Ht & Hres & _ & Hmin).
  { apply Hnum. by left. }
  eexists _, t. split_and!; [apply lookup_insert_eq|done|done|].
  apply Forall_forall. intros c Hc. apply Hmin; [done|by apply Hnum].
Qed.

(** X7: a challenge answered in time with the nearest target computed from
    the challenge as served is graded [TargetAcquired], and the registry is
    back to what it was before the challenge was issued, less any entry the
    challenge replaced. *)
Theorem issue_then_answer (rng : R) (now_gen now_store now : Z)
    (activeChallenges : gmap string ChallengeData) :
  now - now_store ≤ Second →
  let '(challenge, activeChallenges', _) :=
    coordinatesChallengeHandler rng now_gen now_store activeChallenges in
  let response :=
    {| RespChallengeID := ChallengeID challenge;
       ClosestID := findClosestTarget (PlayerPos challenge) (Targets challenge) |} in
  coordinatesAnswerHandler (Some response) now activeChallenges' =
    (TargetAcquired (now - now_store) (ChallengeID challenge)
       (ClosestID response),
     delete (ChallengeID challenge) activeChallenges).
Proof.
  intros Hin. unfold coordinatesChallengeHandler.
  destruct (generateChallenge rng now_gen) as [challenge rng']. cbv zeta.
  unfold coordinatesAnswerHandler, answer_lookup, answer_grade, answer_remove.
  cbn [RespChallengeID ClosestID]. rewrite lookup_insert_eq.
  cbn [CreatedAt ExpectedAnswer]. rewrite decide_False by lia.
  rewrite decide_True by done. by rewrite delete_insert_eq.
Qed.

(** X8: issuing adds one to the count [statusHandler] reports, unless the
    new identifier was already in the registry, in which case the entry is
    replaced and the count stays. *)
Theorem status_counts_issue (rng : R) (now_gen now_store : Z)
    (activeChallenges : gmap string ChallengeData) :
  let '(challenge, activeChallenges', _) :=
    coordinatesChallengeHandler rng now_gen now_store activeChallenges in
  active_challenges (statusHandler activeChallenges') =
    match activeChallenges !! ChallengeID challenge with
    | Some _ => active_challenges (statusHandler activeChallenges)
    | None => S (active_challenges (statusHandler activeChallenges))
    end.
Proof.
  unfold coordinatesChallengeHandler.
  destruct (generateChallenge rng now_gen) as [challenge rng']. cbv zeta.
  cbn [statusHandler active_challenges]. rewrite map_size_insert.
  by destruct (activeChallenges !! ChallengeID challenge).
Qed.

(** X9: the debug log of an issued challenge has one line per target, and
    exactly one line bears the CLOSEST marker: the line of the target that
    bears the expected identifier. *)
Theorem challenge_log_one_marker (rng : R) (now_gen now_store : Z)
    (activeChallenges : gmap string ChallengeData) :
  let '(challenge, _, _) :=
    coordinatesChallengeHandler rng now_gen now_store activeChallenges in
  let expectedAnswer :=
    findClosestTarget (PlayerPos challenge) (Targets challenge) in
  let log := challenge_log challenge expectedAnswer in
  length log = length (Targets challenge) ∧
  ∃ k line, log !! k = Some line ∧ line.2 ≠ "" ∧ ID line.1.1 = expectedAnswer ∧
    ∀ k' line', log !! k' = Some line' → line'.2 ≠ "" → k' = k.
Proof.
  pose proof (coordinatesChallengeHandler_spec rng now_gen now_store
    activeChallenges) as Hspec.
  unfold coordinatesChallengeHandler in *.
  destruct (generateChallenge rng now_gen) as [challenge rng']. cbv zeta.
  destruct Hspec as (d & Hd & _ & _ & _ & Hin & Hnd & _).
  rewrite lookup_insert_eq in Hd. injection Hd as <-. cbn [ExpectedAnswer] in Hin.
  set (expectedAnswer :=
    findClosestTarget (PlayerPos challenge) (Targets challenge)) in *.
  unfold challenge_log. split; [by rewrite length_fmap|].
  apply list_elem_of_lookup_1 in Hin as [k Hk].
  rewrite list_lookup_fmap in Hk.
  destruct (Targets challenge !! k) as [t|] eqn:Ht; [|done].
  injection Hk as Hk.
  eexists k, _. rewrite list_lookup_fmap, Ht. cbn [fmap option_fmap option_map].
  split_and!; [done| | |].
  - cbv zeta. cbn [snd]. by rewrite decide_True.
  - done.
  - intros k' line'. rewrite list_lookup_fmap.
    destruct (Targets challenge !! k') as [t'|] eqn:Ht'; [|done].
    intros [= <-]. cbv zeta. cbn [snd]. case_decide as Hid; [|done]. intros _.
    apply (NoDup_lookup _ k' k expectedAnswer Hnd); rewrite list_lookup_fmap.
    + by rewrite Ht', <- Hid.
    + rewrite Ht. cbn. by rewrite Hk.
Qed.

End GeneratedChallenges.

Lemma issue_then_answer_witness :
  let '(challenge, activeChallenges', _) :=
    coordinatesChallengeHandler 7%nat 1500000000 1500000123 ∅ in
  let response :=
    {| RespChallengeID := ChallengeID challenge;
       ClosestID := findClosestTarget (PlayerPos challenge) (Targets challenge) |} in
  coordinatesAnswerHandler (Some response) 1500000200 activeChallenges' =
    (TargetAcquired (1500000200 - 1500000123) (ChallengeID challenge)
       (ClosestID response),
     delete (ChallengeID challenge) ∅).
Proof.
  apply (issue_then_answer 7%nat 1500000000 1500000123 1500000200 ∅).
  unfold Second. lia.
Defined.

(** ** Sweeps *)

(** X10: a sweep after a sweep leaves what the later one alone would leave;
    in particular a sweep repeated at the same clock reading changes
    nothing. *)
Theorem cleanupExpiredChallenges_compose (now now' : Z)
    (activeChallenges : gmap string ChallengeData) :
  now ≤ now' →
  cleanupExpiredChallenges now'
    (cleanupExpiredChallenges now activeChallenges) =
  cleanupExpiredChallenges now' activeChallenges.
Proof.
  intros Hle. unfold cleanupExpiredChallenges. cbv zeta.
  apply map_eq. intros id. apply option_eq. intros d.
  rewrite !map_lookup_filter_Some. cbn. unfold Second. intuition lia.
Qed.

Lemma cleanupExpiredChallenges_compose_witness :
  cleanupExpiredChallenges 2000000001
    (cleanupExpiredChallenges 1000000000 scenario_registry) =
  cleanupExpiredChallenges 2000000001 scenario_registry.
Proof. apply cleanupExpiredChallenges_compose. lia. Defined.

(** X11: a record that can still be answered in time is not swept: at a
    clock reading at which it is at most one second old, the sweep keeps
    it. *)
Theorem cleanup_spares_answerable (now : Z)
    (activeChallenges : gmap string ChallengeData) (id : string)
    (challengeData : ChallengeData) :
  activeChallenges !! id = Some challengeData →
  now - CreatedAt challengeData ≤ Second →
  cleanupExpiredChallenges now activeChallenges !! id = Some challengeData.
Proof.
  intros Hid Hin. unfold cleanupExpiredChallenges. cbv zeta.
  apply map_lookup_filter_Some. split; [done|]. cbn. unfold Second in *. lia.
Qed.

Lemma cleanup_spares_answerable_witness :
  cleanupExpiredChallenges 1000000000 scenario_registry !! "TARG-42"
    = Some scenario_record.
Proof.
  apply cleanup_spares_answerable; [apply (scenario_lookup "T2")|].
  vm_compute. discriminate.
Defined.

(** X12: a record old enough for a sweep to remove is out of time for every
    later submission: grading it at or after that sweep answers
    [TimeExpired], whatever was chosen, and goes on to no removal. *)
Theorem swept_record_out_of_time (response : TargetResponse)
    (challengeData : ChallengeData) (now_sweep now : Z) :
  CreatedAt challengeData < now_sweep - 2 * Second →
  now_sweep ≤ now →
  answer_grade response challengeData now =
    (TimeExpired (now - CreatedAt challengeData), false).
Proof.
  intros Hold Hle. unfold answer_grade. cbv zeta.
  rewrite decide_True; [done|]. unfold Second in *. lia.
Qed.

Lemma swept_record_out_of_time_witness :
  answer_grade (submit "T2") scenario_record 2000000001 =
    (TimeExpired (2000000001 - CreatedAt scenario_record), false).
Proof.
  apply (swept_record_out_of_time (submit "T2") scenario_record 2000000001);
    [vm_compute; reflexivity|lia].
Defined.

(** ** Answers *)

(** X13: a submission for an identifier that is not in the registry is
    answered [NotFound] and the registry is left as it was. *)
Theorem answer_unknown_challenge (response : TargetResponse) (now : Z)
    (activeChallenges : gmap string ChallengeData) :
  activeChallenges !! RespChallengeID response = None →
  coordinatesAnswerHandler (Some response) now activeChallenges =
    (NotFound, activeChallenges).
Proof.
  intros Hid. unfold coordinatesAnswerHandler, answer_lookup. by rewrite Hid.
Qed.

Lemma answer_unknown_challenge_witness :
  coordinatesAnswerHandler
    (Some {| RespChallengeID := "TARG-0"; ClosestID := "T2" |}) 5
    scenario_registry = (NotFound, scenario_registry).
Proof. apply answer_unknown_challenge. vm_compute. reflexivity. Defined.

(** X14: a submission touches no entry but the one it names: every other
    identifier maps to what it mapped to before, whatever the verdict. *)
Theorem answer_leaves_others (decoded : option TargetResponse) (now : Z)
    (activeChallenges : gmap string ChallengeData) (id : string) :
  (∀ response, decoded = Some response → id ≠ RespChallengeID response) →
  (coordinatesAnswerHandler decoded now activeChallenges).2 !! id =
    activeChallenges !! id.
Proof.
  intros Hid. unfold coordinatesAnswerHandler, answer_lookup, answer_remove.
  destruct decoded as [response|]; [|done].
  destruct (activeChallenges !! RespChallengeID response) as [d|]; [|done].
  destruct (answer_grade response d now) as [out [|]]; [|done].
  cbn [snd]. apply lookup_delete_ne. intros Heq. by apply (Hid response).
Qed.

Lemma answer_leaves_others_witness :
  (coordinatesAnswerHandler
     (Some {| RespChallengeID := "TARG-0"; ClosestID := "T2" |}) 5
     scenario_registry).2 !! "TARG-42" = scenario_registry !! "TARG-42".
Proof. apply answer_leaves_others. by intros response [= <-]. Defined.

(** X15: a record is graded once: after a submission was graded right or
    wrong, the next submission for the same identifier is answered
    [NotFound], at whatever time and whatever it chooses. *)
Theorem answer_graded_once (first second : TargetResponse) (now now' : Z)
    (activeChallenges : gmap string ChallengeData)
    (challengeData : ChallengeData) :
  activeChallenges !! RespChallengeID first = Some challengeData →
  now - CreatedAt challengeData ≤ Second →
  RespChallengeID second = RespChallengeID first →
  coordinatesAnswerHandler (Some second) now'
    (coordinatesAnswerHandler (Some first) now activeChallenges).2 =
  (NotFound, delete (RespChallengeID first) activeChallenges).
Proof.
  intros Hid Hin Hsame.
  assert ((coordinatesAnswerHandler (Some first) now activeChallenges).2 =
          delete (RespChallengeID first) activeChallenges) as ->.
  { unfold coordinatesAnswerHandler, answer_lookup, answer_grade, answer_remove.
    rewrite Hid. cbv zeta. rewrite decide_False by lia.
    case_decide; [done|]. by destruct (feedback_scan _ _ _ _ _ _). }
  unfold coordinatesAnswerHandler, answer_lookup.
  by rewrite Hsame, lookup_delete_eq.
Qed.

Lemma answer_graded_once_witness :
  coordinatesAnswerHandler (Some (submit "T2")) 600000000
    (coordinatesAnswerHandler (Some (submit "T1")) 500000000
       scenario_registry).2 =
  (NotFound, delete (RespChallengeID (submit "T1")) scenario_registry).
Proof.
  apply (answer_graded_once (submit "T1") (submit "T2") 500000000 600000000
           scenario_registry scenario_record (scenario_lookup "T1"));
    [vm_compute; discriminate|reflexivity].
Defined.

(** X16: [TargetAcquired] is answered only to a decoded submission that
    names a record of the registry, chose that record's expected answer and
    came within the second; the elapsed time reported is the age of the
    record, and the record is removed. *)
Theorem answer_acquired_only_if (decoded : option TargetResponse) (now : Z)
    (activeChallenges : gmap string ChallengeData)
    (elapsed : Z) (challenge_id target_id : string) :
  (coordinatesAnswerHandler decoded now activeChallenges).1 =
    TargetAcquired elapsed challenge_id target_id →
  ∃ challengeData,
    decoded = Some {| RespChallengeID := challenge_id; ClosestID := target_id |} ∧
    activeChallenges !! challenge_id = Some challengeData ∧
    target_id = ExpectedAnswer challengeData ∧
    elapsed = now - CreatedAt challengeData ∧
    elapsed ≤ Second ∧
    (coordinatesAnswerHandler decoded now activeChallenges).2 =
      delete challenge_id activeChallenges.
Proof.
  unfold coordinatesAnswerHandler, answer_lookup, answer_grade, answer_remove.
  destruct decoded as [[cid chosen]|]; [|done]. cbn [RespChallengeID ClosestID].
  destruct (activeChallenges !! cid) as [d|] eqn:Hid; [|done]. cbv zeta.
  case_decide as Hlate; [done|]. case_decide as Hright.
  - cbn [fst snd]. intros [= <- <- <-]. exists d. split_and!; try done; lia.
  - by destruct (feedback_scan _ _ _ _ _ _).
Qed.

Lemma answer_acquired_only_if_witness :
  ∃ challengeData,
    Some (submit "T2") =
      Some {| RespChallengeID := "TARG-42"; ClosestID := "T2" |} ∧
    scenario_registry !! "TARG-42" = Some challengeData ∧
    "T2" = ExpectedAnswer challengeData ∧
    500000000 = 500000000 - CreatedAt challengeData ∧
    500000000 ≤ Second ∧
    (coordinatesAnswerHandler (Some (submit "T2")) 500000000
       scenario_registry).2 = delete "TARG-42" scenario_registry.
Proof.
  apply (answer_acquired_only_if (Some (submit "T2")) 500000000
           scenario_registry 500000000 "TARG-42" "T2").
  vm_compute. reflexivity.
Defined.

(** X17: in the feedback of a wrong answer that names a target, the chosen
    distance is never smaller than the correct one, for a record whose
    expected answer is the nearest target of its distinctly named targets
    (as the issuing path stores it). *)
Theorem feedback_never_closer
    (activeChallenges : gmap string ChallengeData) (response : TargetResponse)
    (challengeData : ChallengeData) (now : Z) :
  activeChallenges !! RespChallengeID response = Some challengeData →
  NoDup (ID <$> Targets (Challenge challengeData)) →
  ExpectedAnswer challengeData =
    findClosestTarget (PlayerPos (Challenge challengeData))
      (Targets (Challenge challengeData)) →
  now - CreatedAt challengeData ≤ Second →
  ClosestID response ≠ ExpectedAnswer challengeData →
  ClosestID response ∈ ID <$> Targets (Challenge challengeData) →
  ∃ correct_distance chosen_distance,
    (coordinatesAnswerHandler (Some response) now activeChallenges).1 =
      TargetMissed (ExpectedAnswer challengeData) (ClosestID response)
        correct_distance chosen_distance (RespChallengeID response) ∧
    (chosen_distance <? correct_distance)%float = false.
Proof.
  intros Hid Hnd Hexp Hin Hwrong Hchosen.
  unfold coordinatesAnswerHandler, answer_lookup, answer_grade.
  rewrite Hid. cbv zeta. rewrite decide_False by lia.
  rewrite decide_False by done.
  set (p := PlayerPos (Challenge challengeData)) in *.
  set (targets := Targets (Challenge challengeData)) in *.
  apply list_elem_of_fmap in Hchosen as (tc & Htc & Hintc).
  assert (targets ≠ []) as Hne by (intros Hnil; rewrite Hnil in Hintc;
                                   by apply elem_of_nil in Hintc).
  destruct (findClosestTarget_scan p targets Hne) as (i & t & Hi & Hres & Hmin & _).
  assert (t ∈ targets) as Hint by (by eapply list_elem_of_lookup_2).
  pose proof (feedback_scan_unique p (ExpectedAnswer challengeData)
    (ClosestID response) targets 0%float 0%float Hnd) as Huniq.
  destruct (Huniq t Hint) as [_ Hcd]. destruct (Huniq tc Hintc) as [Hchd _].
  destruct (feedback_scan _ _ _ _ _ _) as [cd chd]. cbn [fst snd] in *.
  exists cd, chd. split; [done|].
  rewrite Hcd by (by rewrite Hexp, Hres). rewrite Hchd by done.
  by apply Hmin.
Qed.

Lemma feedback_never_closer_witness :
  ∃ correct_distance chosen_distance,
    (coordinatesAnswerHandler (Some (submit "T1")) 500000000
       scenario_registry).1 =
      TargetMissed (ExpectedAnswer scenario_record) (ClosestID (submit "T1"))
        correct_distance chosen_distance (RespChallengeID (submit "T1")) ∧
    (chosen_distance <? correct_distance)%float = false.
Proof.
  apply (feedback_never_closer scenario_registry (submit "T1") scenario_record
           500000000 (scenario_lookup "T1") scenario_ids_distinct).
  - reflexivity.
  - vm_compute. discriminate.
  - vm_compute. discriminate.
  - cbn. apply elem_of_cons. by left.
Defined.

(** X18: a graded submission takes one off the count [statusHandler]
    reports; a submission answered anything else leaves the count as it
    was. *)
Theorem status_counts_answer (decoded : option TargetResponse) (now : Z)
    (activeChallenges : gmap string ChallengeData) :
  let '(out, activeChallenges') :=
    coordinatesAnswerHandler decoded now activeChallenges in
  active_challenges (statusHandler activeChallenges') =
    match out with
    | TargetAcquired _ _ _ | TargetMissed _ _ _ _ _ =>
        pred (active_challenges (statusHandler activeChallenges))
    | _ => active_challenges (statusHandler activeChallenges)
    end.
Proof.
  unfold coordinatesAnswerHandler, answer_lookup, answer_grade, answer_remove.
  destruct decoded as [response|]; [|done].
  destruct (activeChallenges !! RespChallengeID response) as [d|] eqn:Hid;
    [|done].
  cbv zeta. cbn [statusHandler active_challenges].
  case_decide; [done|]. case_decide.
  - by rewrite map_size_delete_Some.
  - destruct (feedback_scan _ _ _ _ _ _). by rewrite map_size_delete_Some.
Qed.

(** X19: a run of sweeps at clock readings none of which is later than the
    last leaves exactly what the last sweep alone would leave: the sweeper
    loop never removes more than its latest pass accounts for. *)
Theorem sweeper_loop_last (readings : list Z) (now : Z)
    (activeChallenges : gmap string ChallengeData) :
  Forall (λ reading, reading ≤ now) readings →
  sweeper_loop (readings ++ [now]) activeChallenges =
    cleanupExpiredChallenges now activeChallenges.
Proof.
  unfold sweeper_loop. rewrite fold_left_app. cbn [fold_left].
  revert activeChallenges.
  induction readings as [|reading readings IH]; intros activeChallenges Hall;
    [done|].
  apply Forall_cons in Hall as [Hle Hall]. cbn [fold_left].
  rewrite IH by done. apply map_eq. intros id. apply option_eq. intros d.
  unfold cleanupExpiredChallenges. cbv zeta.
  rewrite !map_lookup_filter_Some. cbn. unfold Second. intuition lia.
Qed.

Lemma sweeper_loop_last_witness :
  sweeper_loop ([2000000000; 4000000000] ++ [6000000000]) scenario_registry =
    cleanupExpiredChallenges 6000000000 scenario_registry.
Proof. apply sweeper_loop_last. repeat constructor; lia. Defined.

(** ** Handlers in flight, continued *)

Lemma run_thread_subset (t : Thread) (now : Z)
    (activeChallenges : gmap string ChallengeData) (id : string)
    (challengeData : ChallengeData) :
  (∀ challenge expectedAnswer, t ≠ Issuing challenge expectedAnswer) →
  (run_thread t now activeChallenges).2 !! id = Some challengeData →
  activeChallenges !! id = Some challengeData.
Proof.
  intros Hiss.
  destruct t as [c e|r|r d|r out| |out]; cbn [run_thread]; try done.
  - by destruct (Hiss c e).
  - unfold answer_lookup. by destruct (activeChallenges !! RespChallengeID r).
  - by destruct (answer_grade r d now) as [out [|]].
  - cbn [snd]. unfold answer_remove. by intros [_ ?]%lookup_delete_Some.
  - cbn [snd]. apply cleanupExpiredChallenges_subset.
Qed.

(** X20: as long as no challenge is being issued, the registry only
    shrinks, under every schedule of submissions and sweeps: an entry found
    after the run was there before it, with the same record. *)
Theorem registry_shrinks_without_issuing (schedule : list Event) : ∀ (w : World),
  (∀ k challenge expectedAnswer,
     pool w !! k ≠ Some (Issuing challenge expectedAnswer)) →
  ∀ id challengeData,
    registry (exec schedule w) !! id = Some challengeData →
    registry w !! id = Some challengeData.
Proof.
  induction schedule as [|ev schedule IH]; intros w Hiss id d; [done|].
  cbn [exec fold_left]. intros Hd.
  apply (IH (step ev w)) in Hd.
  - destruct ev as [i|dt]; cbn [step] in Hd; [|done].
    destruct (pool w !! i) as [t|] eqn:Hi; [|done].
    pose proof (run_thread_subset t (clock w) (registry w) id d) as Hsub.
    destruct (run_thread t (clock w) (registry w)) as [t' m].
    cbn [registry snd] in *. apply Hsub; [|done].
    intros c e ->. by apply (Hiss i c e).
  - intros k c e Hk. destruct ev as [i|dt]; cbn [step] in Hk;
      [|by apply (Hiss k c e)].
    destruct (pool w !! i) as [t|] eqn:Hi; [|by apply (Hiss k c e)].
    pose proof (run_thread_not_issuing t (clock w) (registry w) c e) as Hnot.
    destruct (run_thread t (clock w) (registry w)) as [t' m].
    cbn [pool fst] in *. destruct (decide (k = i)) as [->|Hne].
    + rewrite list_lookup_insert_eq in Hk by (by eapply lookup_lt_Some).
      by injection Hk as ->.
    + rewrite list_lookup_insert_ne in Hk by done. by apply (Hiss k c e).
Qed.

Lemma registry_shrinks_without_issuing_witness :
  registry
    {| registry := scenario_registry;
       clock := 500000000;
       pool := [Answering {| RespChallengeID := "TARG-0"; ClosestID := "T1" |};
                Sweeping] |} !! "TARG-42" = Some scenario_record.
Proof.
  apply (registry_shrinks_without_issuing [Run 0; Run 1]%nat
           {| registry := scenario_registry;
              clock := 500000000;
              pool := [Answering {| RespChallengeID := "TARG-0";
                                    ClosestID := "T1" |};
                       Sweeping] |}).
  - intros [|[|k]] c e; cbn; discriminate.
  - vm_compute. reflexivity.
Defined.

Lemma answer_thread_sequential_witness :
  let w := {| registry := scenario_registry;
              clock := 500000000;
              pool := [Answering (submit "T1")] |} in
  let w' := exec [Run 0; Run 0; Run 0]%nat w in
  registry w' =
    (coordinatesAnswerHandler (Some (submit "T1")) (clock w) (registry w)).2 ∧
  pool w' !! 0%nat =
    Some (Finished (Some
      (coordinatesAnswerHandler (Some (submit "T1")) (clock w) (registry w)).1)).
Proof.
  apply (answer_thread_sequential
           {| registry := scenario_registry;
              clock := 500000000;
              pool := [Answering (submit "T1")] |} 0 (submit "T1")).
  reflexivity.
Defined.
